(** * qw-track: the music-guessing game

    A shallow embedding of the two components that carry the game logic:

    - [GamePlayer] (the round: timer, guesses, score, replay), and
    - [App] (the orchestrator: fetching a playlist and picking an unplayed
      track).

    JavaScript numbers are binary64 values.  They are embedded as the
    rationals they denote, and every arithmetic operator rounds its exact
    result to the nearest binary64 number, a tie going to the even one
    ([Number.fl]).  NaN, the infinities and the sign of zero are not
    represented, and no result is taken to overflow. *)

From Stdlib Require Import QArith Qround Qpower Lqa ZArith Lia Ascii.
From stdpp Require Import base gmap sets list strings.

Local Open Scope Q_scope.

(** ** Data shapes read by the components

    types/spotify is not among the sources; the records below have the
    fields that the two components read. *)

Record SpotifyImage := { url : string }.

Record SpotifyArtist := { artist_name : string }.

Record SpotifyAlbum := { album_name : string; images : list SpotifyImage }.

Record SpotifyTrack := {
  track_id : string;
  track_name : string;
  artists : list SpotifyArtist;
  album : SpotifyAlbum
}.

(** ** Numbers *)

Module Number.

(** The exponent of a positive number: the [e] with [2^e <= x < 2^(e+1)]. *)
Definition exponent (x : Q) : Z :=
  let k := (Z.log2 (Qnum x) - Z.log2 (Zpos (Qden x)))%Z in
  if Qle_bool (2 ^ k) x then k else (k - 1)%Z.

(** The nearest integer, a tie going to the even one. *)
Definition nearest_even (x : Q) : Z :=
  let f := Qfloor x in
  match Qcompare (x - inject_Z f) (1 # 2) with
  | Lt => f
  | Eq => if Z.even f then f else (f + 1)%Z
  | Gt => (f + 1)%Z
  end.

(** The spacing of the binary64 numbers around a positive number: 53
    significant bits, and nothing finer than [2^-1074]. *)
Definition ulp (x : Q) : Q := 2 ^ (Z.max (exponent x) (-1022) - 52).

Definition round_pos (x : Q) : Q := inject_Z (nearest_even (x / ulp x)) * ulp x.

(** The binary64 number nearest to [x], a tie going to the one with an
    even last bit; below [2^-1022] the spacing no longer shrinks. *)
Definition fl (x : Q) : Q :=
  match Qcompare x 0 with
  | Lt => - round_pos (- x)
  | Eq => 0
  | Gt => round_pos x
  end.

(** The arithmetic operators: the exact result, rounded. *)
Definition add (x y : Q) : Q := fl (x + y).
Definition sub (x y : Q) : Q := fl (x - y).
Definition mul (x y : Q) : Q := fl (x * y).
Definition div (x y : Q) : Q := fl (x / y).

(** A decimal literal of the program text, such as [0.8]; the integer
    literals of the program denote themselves. *)
Definition lit (x : Q) : Q := fl x.

(** [a > b] on numbers. *)
Definition gt (a b : Q) : bool := negb (Qle_bool a b).

(** [Math.max(a, b)]. *)
Definition Math_max (a b : Q) : Q := if Qle_bool a b then b else a.

(** [Math.floor(x)]. *)
Definition Math_floor (x : Q) : Z := Qfloor x.

(** [Math.round(x)]: the nearest integer, a tie going up. *)
Definition Math_round (x : Q) : Z := Qfloor (x + (1 # 2)).

End Number.

(** The operators [+ - * /] of the program text. *)
Notation "x ⊕ y" := (Number.add x y) (at level 50, left associativity).
Notation "x ⊖ y" := (Number.sub x y) (at level 50, left associativity).
Notation "x ⊗ y" := (Number.mul x y) (at level 40, left associativity).
Notation "x ⊘ y" := (Number.div x y) (at level 40, left associativity).

(** ** The Similarity Scorer *)

Module Similarity.

(** Modelled from the spec: utils/similarity is not among the sources.
    The Similarity Scorer is "whitespace-insensitive": these characters
    are dropped. *)
Definition is_space (c : ascii) : bool :=
  let n := nat_of_ascii c in ((n =? 32) || ((9 <=? n) && (n <=? 13)))%nat.

(** Modelled from the spec: utils/similarity is not among the sources.
    The Similarity Scorer is "case-insensitive": letters are compared in
    lower case. *)
Definition lower (c : ascii) : ascii :=
  let n := nat_of_ascii c in
  if ((65 <=? n) && (n <=? 90))%nat then ascii_of_nat (n + 32) else c.

(** Modelled from the spec: utils/similarity is not among the sources.
    Case and whitespace are dropped before two strings are compared. *)
Definition normalize (s : string) : list ascii :=
  List.map lower (List.filter (fun c => negb (is_space c)) (String.list_ascii_of_string s)).

(** Modelled from the spec: utils/similarity is not among the sources.
    The Similarity Scorer is "tolerant of minor typos (edit-distance-like
    ...)": the number of insertions, deletions and substitutions that
    turn one string into the other. *)
Fixpoint distance (a b : list ascii) {struct a} : nat :=
  match a with
  | [] => length b
  | x :: a' =>
      (fix row (b : list ascii) : nat :=
         match b with
         | [] => S (length a')
         | y :: b' =>
             if Ascii.eqb x y then distance a' b'
             else S (Nat.min (Nat.min (row b') (distance a' b)) (distance a' b'))
         end) b
  end.

(** Modelled from the spec: utils/similarity is not among the sources.
    The Similarity Scorer returns a closeness in [0,1], ignores case and
    whitespace, tolerates typos in the manner of an edit distance, gives 1
    for two empty strings and 0 when exactly one side is empty.  The
    component itself takes the scorer as a parameter; this one serves to
    run it. *)
Definition calculateSimilarity (a b : string) : Q :=
  let a' := normalize a in
  let b' := normalize b in
  match Nat.max (length a') (length b') with
  | O => 1
  | S n => 1 ⊖ inject_Z (Z.of_nat (distance a' b')) ⊘ inject_Z (Z.of_nat (S n))
  end.

End Similarity.

(** ** The round: component GamePlayer *)

Module GamePlayer.

Import Number.

(** The value kept in [result]. *)
Record GuessResult := { score : Z; isCorrect : bool }.

(** The object handed to [addGameResult]. *)
Record GameResult := {
  trackId : string;
  trackName : string;
  artistName : string;
  albumImage : string;
  result_score : Z;
  time : Q;
  timestamp : Z
}.

(** The [useState] cells of the component. *)
Record GameState := {
  timer : Q;
  isGuessing : bool;
  titleGuess : string;
  artistGuess : string;
  result : option GuessResult;
  hasStartedPlaying : bool
}.

(** What [usePlayer] lets the component observe of the playback engine. *)
Record Player := {
  isPlaying : bool;
  error : option string;
  isInitialized : bool
}.

(** Calls that leave the component, through its props and the history
    context. *)
Inductive Call :=
| onGameComplete (score : Z)
| onPlayAgain
| addGameResult (entry : GameResult).

(** Everything a handler can change: the cells, the playback engine and
    the calls made so far (oldest first). *)
Record World := {
  game : GameState;
  player : Player;
  calls : list Call
}.

(** A handler either runs to its end or stops at an uncaught exception or
    a rejected promise ([None]). *)
Definition Handler (A : Type) : Type := World -> option (A * World).

Definition ret {A} (a : A) : Handler A := fun w => Some (a, w).

Definition bind {A B} (m : Handler A) (k : A -> Handler B) : Handler B :=
  fun w => match m w with
           | Some (a, w') => k a w'
           | None => None
           end.

Definition throw {A} : Handler A := fun _ => None.

Definition exec {A} (m : Handler A) (w : World) : option World :=
  match m w with
  | Some (_, w') => Some w'
  | None => None
  end.

Notation "x <- m ;; k" := (bind m (fun x => k))
  (at level 100, m at next level, right associativity).
Notation "m ;; k" := (bind m (fun _ => k))
  (at level 100, right associativity).

(** The setters of the cells. *)
Definition modify (f : GameState -> GameState) : Handler unit :=
  fun w => Some (tt, {| game := f (game w); player := player w; calls := calls w |}).

Definition setTimerWith (f : Q -> Q) : Handler unit :=
  modify (fun g => {| timer := f (timer g); isGuessing := isGuessing g;
                      titleGuess := titleGuess g; artistGuess := artistGuess g;
                      result := result g; hasStartedPlaying := hasStartedPlaying g |}).

Definition setTimer (v : Q) : Handler unit := setTimerWith (fun _ => v).

Definition setIsGuessing (b : bool) : Handler unit :=
  modify (fun g => {| timer := timer g; isGuessing := b;
                      titleGuess := titleGuess g; artistGuess := artistGuess g;
                      result := result g; hasStartedPlaying := hasStartedPlaying g |}).

Definition setTitleGuess (s : string) : Handler unit :=
  modify (fun g => {| timer := timer g; isGuessing := isGuessing g;
                      titleGuess := s; artistGuess := artistGuess g;
                      result := result g; hasStartedPlaying := hasStartedPlaying g |}).

Definition setArtistGuess (s : string) : Handler unit :=
  modify (fun g => {| timer := timer g; isGuessing := isGuessing g;
                      titleGuess := titleGuess g; artistGuess := s;
                      result := result g; hasStartedPlaying := hasStartedPlaying g |}).

Definition setResult (r : option GuessResult) : Handler unit :=
  modify (fun g => {| timer := timer g; isGuessing := isGuessing g;
                      titleGuess := titleGuess g; artistGuess := artistGuess g;
                      result := r; hasStartedPlaying := hasStartedPlaying g |}).

Definition setHasStartedPlaying (b : bool) : Handler unit :=
  modify (fun g => {| timer := timer g; isGuessing := isGuessing g;
                      titleGuess := titleGuess g; artistGuess := artistGuess g;
                      result := result g; hasStartedPlaying := b |}).

(** A call through a prop or the history context. *)
Definition call (c : Call) : Handler unit :=
  fun w => Some (tt, {| game := game w; player := player w; calls := calls w ++ [c] |}).

(** A value that may be missing: reading through it throws. *)
Definition must {A} (o : option A) : Handler A :=
  match o with
  | Some a => ret a
  | None => throw
  end.

(** The four phases of a round, read off the cells the way the render
    function and the timer effect branch on them. *)
Inductive Phase := AwaitingPlayback | Playing | Guessing | Scored.

Definition phase (w : World) : Phase :=
  match result (game w) with
  | Some _ => Scored
  | None =>
      if isGuessing (game w) then Guessing
      else if isPlaying (player w) && hasStartedPlaying (game w) then Playing
      else AwaitingPlayback
  end.

(** The controls of the component, each named after what it triggers:
    [handlePauseAndGuess], [setTitleGuess], [setArtistGuess],
    [handleSubmitGuess] and [handlePlayAgain]. *)
Inductive Control :=
| PauseAndGuess
| TitleInput
| ArtistInput
| SubmitGuess
| PlayAgain.

(** Truthiness of [error]. *)
Definition truthy (e : option string) : bool :=
  match e with
  | Some s => negb (String.eqb s "")
  | None => false
  end.

(** The controls the render function puts on the page. *)
Definition offered (w : World) (c : Control) : bool :=
  if truthy (error (player w)) then false
  else if negb (isInitialized (player w)) then false
  else match result (game w) with
       | Some _ => match c with PlayAgain => true | _ => false end
       | None =>
           if isGuessing (game w)
           then match c with
                | TitleInput | ArtistInput | SubmitGuess => true
                | _ => false
                end
           else match c with PauseAndGuess => true | _ => false end
       end.

Section Component.

(** utils/similarity. *)
Variable calculateSimilarity : string -> string -> Q.

(** hooks/usePlayer: the operation on the playback engine that the
    component awaits; [None] is a rejected promise. *)
Variable togglePlayback : Player -> option Player.

Definition await (f : Player -> option Player) : Handler unit :=
  fun w => match f (player w) with
           | Some p => Some (tt, {| game := game w; player := p; calls := calls w |})
           | None => None
           end.

(** The interval of the timer effect runs under this condition. *)
Definition timerRunning (w : World) : bool :=
  isPlaying (player w) && hasStartedPlaying (game w)
  && negb (isGuessing (game w)) && negb (bool_decide (is_Some (result (game w)))).

(** One firing of the interval. *)
Definition tick : Handler unit :=
  setTimerWith (fun prev => prev ⊕ lit 0.1).

Definition handlePauseAndGuess : Handler unit :=
  await togglePlayback ;;
  setIsGuessing true.

Definition calculateScore (track : SpotifyTrack) (g : GameState) : option GuessResult :=
  match artists track with
  | [] => None
  | artist0 :: _ =>
      let titleSimilarity := calculateSimilarity (titleGuess g) (track_name track) in
      let artistSimilarity := calculateSimilarity (artistGuess g) (artist_name artist0) in
      let averageSimilarity := (titleSimilarity ⊕ artistSimilarity) ⊘ 2 in
      let timeBonus := Math_max 0 (1 ⊖ timer g ⊘ 30) in
      let score := Math_round ((averageSimilarity ⊗ 80 ⊕ timeBonus ⊗ 20) ⊗ 100) in
      Some {| score := score;
              isCorrect := gt titleSimilarity (lit 0.8) && gt artistSimilarity (lit 0.8) |}
  end.

(** The constants [averageSimilarity], [timeBonus] and [score] of
    [calculateScore], each as a function of what it is computed from. *)
Definition averageSimilarity (titleSimilarity artistSimilarity : Q) : Q :=
  (titleSimilarity ⊕ artistSimilarity) ⊘ 2.

Definition timeBonus (timer : Q) : Q := Math_max 0 (1 ⊖ timer ⊘ 30).

Definition scoreOf (averageSimilarity timeBonus : Q) : Z :=
  Math_round ((averageSimilarity ⊗ 80 ⊕ timeBonus ⊗ 20) ⊗ 100).

(** [track.album.images[0]?.url || ''] *)
Definition albumImageOf (track : SpotifyTrack) : string :=
  match images (album track) with
  | [] => ""
  | image0 :: _ => url image0
  end.

(** The handler reads the cells as they were rendered ([g]) and writes
    through the setters; [now] is the value of [Date.now()]. *)
Definition handleSubmitGuess (track : SpotifyTrack) (now : Z) (g : GameState) : Handler unit :=
  result <- must (calculateScore track g) ;;
  setResult (Some result) ;;
  call (onGameComplete (score result)) ;;
  artist0 <- must (head (artists track)) ;;
  call (addGameResult {| trackId := track_id track;
                         trackName := track_name track;
                         artistName := artist_name artist0;
                         albumImage := albumImageOf track;
                         result_score := score result;
                         time := timer g;
                         timestamp := now |}).

Definition handlePlayAgain : Handler unit :=
  setTimer 0 ;;
  setIsGuessing false ;;
  setTitleGuess "" ;;
  setArtistGuess "" ;;
  setResult None ;;
  setHasStartedPlaying false ;;
  call onPlayAgain.

End Component.

End GamePlayer.

(** ** The orchestrator: component App *)

Module App.

Import Number.

(** An entry of [response.items] and of [playlist.tracks.items]. *)
Record PlaylistItem := { track : SpotifyTrack }.

(** What [getPlaylistTracks] resolves to. *)
Record TracksResponse := { items : list PlaylistItem }.

(** [tracks_items] is [tracks.items], which may be missing. *)
Record SpotifyPlaylist := {
  playlist_id : string;
  tracks_items : option (list PlaylistItem)
}.

Definition noMoreTracks : string := "No more unplayed tracks in this playlist!".
Definition failedToLoad : string := "Failed to load tracks. Please try again.".

(** A call of one of the setters the handlers use.  A handler reads the
    cells as they were rendered and queues its setter calls; they are
    applied in order once it is done. *)
Inductive Update :=
| setCurrentTrack (t : option SpotifyTrack)
| setPlayedTracks (f : gset string -> gset string)
| setError (e : option string).

Section Orchestrator.

(** types/spotify: the user record, never inspected here. *)
Variable SpotifyUser : Type.

(** utils/validators. *)
Variable validateTrack : SpotifyTrack -> bool.

(** The [useState] cells of the component. *)
Record AppState := {
  user : option SpotifyUser;
  playlists : list SpotifyPlaylist;
  currentTrack : option SpotifyTrack;
  error : option string;
  playedTracks : gset string
}.

Definition apply (st : AppState) (u : Update) : AppState :=
  match u with
  | setCurrentTrack t =>
      {| user := user st; playlists := playlists st; currentTrack := t;
         error := error st; playedTracks := playedTracks st |}
  | setPlayedTracks f =>
      {| user := user st; playlists := playlists st; currentTrack := currentTrack st;
         error := error st; playedTracks := f (playedTracks st) |}
  | setError e =>
      {| user := user st; playlists := playlists st; currentTrack := currentTrack st;
         error := e; playedTracks := playedTracks st |}
  end.

Definition commit (st : AppState) (us : list Update) : AppState :=
  fold_left apply us st.

(** [response.items.map(...).filter(validateTrack).filter(...)] *)
Definition validTracksOf (response : TracksResponse) (played : gset string) : list SpotifyTrack :=
  List.filter (fun track => negb (bool_decide (track_id track ∈ played)))
    (List.filter validateTrack (List.map track (items response))).

(** [Math.floor(Math.random() * validTracks.length)], [random] being the
    value of [Math.random()]. *)
Definition randomIndex (random : Q) (validTracks : list SpotifyTrack) : nat :=
  Z.to_nat (Math_floor (random ⊗ inject_Z (Z.of_nat (length validTracks)))).

(** One run of the handler, from the settled promise of
    [getPlaylistTracks(playlist.id)] ([None]: it rejected, and the [catch]
    block runs) to the last setter.  An index outside the array would give
    [undefined], whose [id] the queued update of the played set cannot
    read: there are no cells to go on from ([None]). *)
Definition handlePlaylistSelect (getPlaylistTracks : string -> option TracksResponse)
    (random : Q) (playlist : SpotifyPlaylist) (st : AppState) : option (list Update) :=
  match getPlaylistTracks (playlist_id playlist) with
  | Some response =>
      let validTracks := validTracksOf response (playedTracks st) in
      if (length validTracks =? 0)%nat
      then Some [setError (Some noMoreTracks)]
      else
        match validTracks !! randomIndex random validTracks with
        | Some randomTrack =>
            Some [setCurrentTrack (Some randomTrack);
                  setPlayedTracks (fun prev => prev ∪ {[ track_id randomTrack ]});
                  setError None]
        | None => None
        end
  | None => Some [setError (Some failedToLoad)]
  end.

(** [p.tracks.items?.some(item => item.track.id === currentTrack.id)] *)
Definition holds (current : SpotifyTrack) (p : SpotifyPlaylist) : bool :=
  match tracks_items p with
  | Some its => existsb (fun item => String.eqb (track_id (track item)) (track_id current)) its
  | None => false
  end.

Definition handlePlayAgain (getPlaylistTracks : string -> option TracksResponse)
    (random : Q) (st : AppState) : option (list Update) :=
  match currentTrack st with
  | Some current =>
      match List.find (holds current) (playlists st) with
      | Some currentPlaylist => handlePlaylistSelect getPlaylistTracks random currentPlaylist st
      | None => Some []
      end
  | None => Some []
  end.

(** A request for a track: the user picks a playlist, or the round asks
    to play again.  Each carries what the outside world answers. *)
Inductive Request :=
| Select (getPlaylistTracks : string -> option TracksResponse) (random : Q)
         (playlist : SpotifyPlaylist)
| Again (getPlaylistTracks : string -> option TracksResponse) (random : Q).

Definition serve (r : Request) (st : AppState) : option (list Update) :=
  match r with
  | Select api random playlist => handlePlaylistSelect api random playlist st
  | Again api random => handlePlayAgain api random st
  end.

Definition drawOf (r : Request) : Q :=
  match r with
  | Select _ random _ => random
  | Again _ random => random
  end.

Definition apiOf (r : Request) : string -> option TracksResponse :=
  match r with
  | Select api _ _ => api
  | Again api _ => api
  end.

(** What the outside world can answer: [Math.random()] gives a binary64
    number in [0,1), and an array has fewer than [2^32] elements. *)
Definition isDraw (random : Q) : Prop := fl random == random /\ 0 <= random < 1.

Definition isArray {A} (l : list A) : Prop := (Z.of_nat (length l) < 2 ^ 32)%Z.

Definition plausible (r : Request) : Prop :=
  isDraw (drawOf r)
  /\ forall id response, apiOf r id = Some response -> isArray (items response).

(** The identifiers a run of a handler has put into [currentTrack]. *)
Fixpoint selected (us : list Update) : list string :=
  match us with
  | setCurrentTrack (Some t) :: us' => track_id t :: selected us'
  | _ :: us' => selected us'
  | [] => []
  end.

(** A call of a handler that has not run to its end yet: the request,
    and the cells of the render the handler was created in.  The handler
    reads [playedTracks], [currentTrack] and [playlists] from that render,
    also after its [await]. *)
Record Pending := { request : Request; rendered : AppState }.

(** What happens in a session: a handler is called, on the cells as they
    are rendered then ([Call]); or the promise that a pending call awaits
    settles and that call runs to its end ([Settle n], for the [n]-th
    pending call, the oldest being the 0-th).  Nothing keeps a handler
    from being called while another call is pending. *)
Inductive Action :=
| Call (r : Request)
| Settle (n : nat).

(** A session.  A call records the cells it is made on.  When it
    settles, the handler works out its setter calls from the cells it
    recorded, and the setter calls are applied to the cells as they are
    by then.  The result lists the identifiers selected, oldest first;
    [None]: a handler stopped at an exception, or an action settles a
    call that is not pending. *)
Fixpoint session (acts : list Action) (pending : list Pending) (st : AppState)
    : option (list string * AppState) :=
  match acts with
  | [] => Some ([], st)
  | Call r :: acts' =>
      session acts' (pending ++ [ {| request := r; rendered := st |} ]) st
  | Settle n :: acts' =>
      match pending !! n with
      | Some p =>
          match serve (request p) (rendered p) with
          | Some us =>
              match session acts' (delete n pending) (commit st us) with
              | Some (ids, st') => Some (selected us ++ ids, st')
              | None => None
              end
          | None => None
          end
      | None => None
      end
  end.

(** The requests made one after the other: each handler is called once
    the call before it has run to its end and the cells it set are
    rendered. *)
Definition oneByOne (rs : list Request) : list Action :=
  List.flat_map (fun r => [Call r; Settle 0]) rs.

End Orchestrator.

Arguments user {SpotifyUser} _.
Arguments playlists {SpotifyUser} _.
Arguments currentTrack {SpotifyUser} _.
Arguments error {SpotifyUser} _.
Arguments playedTracks {SpotifyUser} _.
Arguments apply {SpotifyUser} _ _.
Arguments commit {SpotifyUser} _ _.
Arguments handlePlaylistSelect {SpotifyUser} _ _ _ _ _.
Arguments handlePlayAgain {SpotifyUser} _ _ _ _.
Arguments serve {SpotifyUser} _ _ _.
Arguments request {SpotifyUser} _.
Arguments rendered {SpotifyUser} _.
Arguments session {SpotifyUser} _ _ _ _.

End App.

(** ** The Score Calculator as the specification words it *)

Module Spec.

Import Number.

(** "final score = round((avgSimilarity×80 + timeBonus×20))" *)
Definition finalScore (avgSimilarity timeBonus : Q) : Z :=
  Math_round (avgSimilarity ⊗ 80 ⊕ timeBonus ⊗ 20).

End Spec.

(** ** The playback engine *)

Module PlaybackEngine.

Import GamePlayer.

(** Modelled from the spec: hooks/usePlayer is not among the sources.
    [togglePlayback] pauses the track when it is playing and resumes it
    when it is paused; [isPlaying] reports which of the two holds. *)
Definition togglePlayback (p : Player) : option Player :=
  Some {| isPlaying := negb (isPlaying p); error := error p;
          isInitialized := isInitialized p |}.

End PlaybackEngine.

(** ** Sample data *)

Module Sample.

Import GamePlayer App.

Definition beatles : SpotifyArtist := {| artist_name := "The Beatles" |}.
Definition preston : SpotifyArtist := {| artist_name := "Billy Preston" |}.

Definition letItBe : SpotifyAlbum :=
  {| album_name := "Let It Be"; images := [ {| url := "https://i.scdn.co/image/letitbe" |} ] |}.

Definition getBack : SpotifyTrack :=
  {| track_id := "4MLBqAEzNN89o2M9h92Z26"; track_name := "Get Back";
     artists := [beatles; preston]; album := letItBe |}.

Definition acrossTheUniverse : SpotifyTrack :=
  {| track_id := "4dkoqJrP0L8FXftrMZongF"; track_name := "Across the Universe";
     artists := [beatles]; album := letItBe |}.

(** Cells of a round in which both guesses are right. *)
Definition guessed (timer : Q) : GameState :=
  {| timer := timer; isGuessing := true; titleGuess := "get back";
     artistGuess := "the beatles"; result := None; hasStartedPlaying := true |}.

(** Cells of a round in which only the title was typed. *)
Definition titleOnly (timer : Q) : GameState :=
  {| timer := timer; isGuessing := true; titleGuess := "Get Back";
     artistGuess := ""; result := None; hasStartedPlaying := true |}.

Definition paused : Player := {| isPlaying := false; GamePlayer.error := None; isInitialized := true |}.

Definition guessing : World := {| game := guessed 4.5; player := paused; calls := [] |}.

Definition scored : World :=
  {| game := {| timer := 4.5; isGuessing := true; titleGuess := "get back";
                artistGuess := "the beatles";
                result := Some {| score := 9700; isCorrect := true |};
                hasStartedPlaying := true |};
     player := paused;
     calls := [onGameComplete 9700] |}.

Definition playlist : SpotifyPlaylist :=
  {| playlist_id := "37i9dQZF1DXdLtD0qszB1w";
     tracks_items := Some [ {| track := getBack |}; {| track := acrossTheUniverse |} ] |}.

(** The catalog as it answers for the sample playlist, and as it fails. *)
Definition api (id : string) : option TracksResponse :=
  if String.eqb id "37i9dQZF1DXdLtD0qszB1w"
  then Some {| items := [ {| track := getBack |}; {| track := acrossTheUniverse |} ] |}
  else None.

Definition offline (id : string) : option TracksResponse := None.

(** A validator to run the orchestrator with: a track needs an identifier. *)
Definition hasId (t : SpotifyTrack) : bool := negb (String.eqb (track_id t) "").

Definition fresh : AppState unit :=
  {| user := None; playlists := [playlist]; currentTrack := None; App.error := None;
     playedTracks := ∅ |}.

Definition allPlayed : AppState unit :=
  {| user := None; playlists := [playlist]; currentTrack := Some getBack; App.error := None;
     playedTracks := {[ "4MLBqAEzNN89o2M9h92Z26"; "4dkoqJrP0L8FXftrMZongF" ]} |}.

End Sample.

(** ** The round as a transition system *)

Module Round.

Import Number GamePlayer.

(** The arguments of the [useState] calls of the component. *)
Definition initialGame : GameState :=
  {| timer := 0; isGuessing := false; titleGuess := ""; artistGuess := "";
     result := None; hasStartedPlaying := false |}.

(** A mounted component: the cells, the engine and the calls made, and
    the number of calls of [handlePauseAndGuess] that still await
    [togglePlayback]. *)
Record Component := { world : World; toggling : nat }.

(** The component as it is mounted, the playback engine reporting [p]. *)
Definition mounted (p : Player) : Component :=
  {| world := {| game := initialGame; player := p; calls := [] |}; toggling := 0 |}.

(** What can happen to a mounted component.  The first four come from
    outside: the interval callback fires, the promise of [playTrack]
    resolves, the playback engine reports something new, the promise of a
    pending [togglePlayback] settles; when they come is not tied to the
    cells.  The others are the user on a control; [Submit] carries the
    [track] prop of the render and the value of [Date.now()]. *)
Inductive Event :=
| Tick
| Started
| Engine (p : Player)
| Toggled
| Pause
| Title (value : string)
| Artist (value : string)
| Submit (track : SpotifyTrack) (now : Z)
| Again.

(** The control an event of the user goes through. *)
Definition control (e : Event) : option Control :=
  match e with
  | Pause => Some PauseAndGuess
  | Title _ => Some TitleInput
  | Artist _ => Some ArtistInput
  | Submit _ _ => Some SubmitGuess
  | Again => Some PlayAgain
  | Tick | Started | Engine _ | Toggled => None
  end.

Section Round.

Variable calculateSimilarity : string -> string -> Q.
Variable togglePlayback : Player -> option Player.

(** What runs on an event; [g] is the cells as they were rendered.  The
    click on the pause-and-guess button only starts [handlePauseAndGuess],
    which waits at its [await]; the handler runs on when the promise
    settles ([Toggled]). *)
Definition handler (e : Event) (g : GameState) : Handler unit :=
  match e with
  | Tick => tick
  | Started => setHasStartedPlaying true
  | Engine p => fun w => Some (tt, {| game := game w; player := p; calls := calls w |})
  | Toggled => handlePauseAndGuess togglePlayback
  | Pause => ret tt
  | Title value => setTitleGuess value
  | Artist value => setArtistGuess value
  | Submit track now => handleSubmitGuess calculateSimilarity track now g
  | Again => handlePlayAgain
  end.

(** The calls of [handlePauseAndGuess] pending after an event. *)
Definition pending (e : Event) (n : nat) : option nat :=
  match e with
  | Pause => Some (S n)
  | Toggled => match n with O => None | S n' => Some n' end
  | _ => Some n
  end.

(** One event.  The user can only use a control that is on the page, and
    a promise only settles when a call awaits it; [None] also when the
    handler stops at an exception. *)
Definition step (c : Component) (e : Event) : option Component :=
  let w := world c in
  if match control e with Some k => offered w k | None => true end
  then match pending e (toggling c), exec (handler e (game w)) w with
       | Some n, Some w' => Some {| world := w'; toggling := n |}
       | _, _ => None
       end
  else None.

Fixpoint run (es : list Event) (c : Component) : option Component :=
  match es with
  | [] => Some c
  | e :: es' =>
      match step c e with
      | Some c' => run es' c'
      | None => None
      end
  end.

End Round.

(** Reading the log of calls round by round: a round reports its score
    with [onGameComplete] and hands the history an entry with that score,
    and only then can [onPlayAgain] open the next round.  [scored] is the
    score reported in the round under way, if any; the result is the same
    at the end of the log, or [None] if the log has another shape. *)
Fixpoint audit (cs : list Call) (scored : option Z) : option (option Z) :=
  match cs with
  | [] => Some scored
  | onGameComplete s :: cs' =>
      match scored, cs' with
      | None, addGameResult e :: cs'' =>
          if (result_score e =? s)%Z then audit cs'' (Some s) else None
      | _, _ => None
      end
  | onPlayAgain :: cs' =>
      match scored with
      | Some _ => audit cs' None
      | None => None
      end
  | addGameResult _ :: _ => None
  end.

(** The number of firings of the interval after which the time bonus is
    used up. *)
Definition bonusTicks : nat := 300.

(** The timer after [n] firings of the interval. *)
Definition ticked (n : nat) (timer : Q) : Q :=
  Nat.iter n (fun prev => prev ⊕ lit 0.1) timer.

End Round.

(** ** The interval of the timer effect *)

Module Interval.

(** The intervals this component has running in the window ([live]), the
    handle the next [setInterval] returns, and [intervalRef.current].
    Handles are positive, so a handle is truthy. *)
Record Timers := {
  live : gset positive;
  next : positive;
  intervalRef : option positive
}.

(** Before the component is mounted. *)
Definition fresh : Timers := {| live := ∅; next := 1%positive; intervalRef := None |}.

(** [if (intervalRef.current) window.clearInterval(intervalRef.current)]:
    the clean-up of both effects, and the [else] branch of the second. *)
Definition clearRef (t : Timers) : Timers :=
  match intervalRef t with
  | Some handle => {| live := live t ∖ {[ handle ]}; next := next t; intervalRef := intervalRef t |}
  | None => t
  end.

(** The body of the second effect; [running] is its condition
    [isPlaying && hasStartedPlaying && !isGuessing && !result]. *)
Definition timerEffect (running : bool) (t : Timers) : Timers :=
  if running
  then {| live := live t ∪ {[ next t ]}; next := Pos.succ (next t); intervalRef := Some (next t) |}
  else clearRef t.

(** What React does with the two effects: on mount it runs the bodies; on
    an update it runs, for the effects whose dependencies changed, first
    the clean-ups and then the bodies; on unmount it runs the clean-ups.
    The body of the first effect sets no interval. *)
Inductive Commit :=
| Mount (running : bool)
| Update (playbackDeps timerDeps : bool) (running : bool)
| Unmount.

Definition commit (t : Timers) (c : Commit) : Timers :=
  match c with
  | Mount running => timerEffect running t
  | Update playbackDeps timerDeps running =>
      let t1 := if playbackDeps then clearRef t else t in
      let t2 := if timerDeps then clearRef t1 else t1 in
      if timerDeps then timerEffect running t2 else t2
  | Unmount => clearRef (clearRef t)
  end.

Definition commits (cs : list Commit) (t : Timers) : Timers := fold_left commit cs t.

(** The commits of a component come in this order: a mount, then
    updates, then an unmount, and so on again; [mounted] tells whether
    the component is mounted when the list starts. *)
Fixpoint lifecycle (mounted : bool) (cs : list Commit) : bool :=
  match cs with
  | [] => true
  | Mount _ :: cs' => negb mounted && lifecycle true cs'
  | Update _ _ _ :: cs' => mounted && lifecycle true cs'
  | Unmount :: cs' => mounted && lifecycle false cs'
  end.

End Interval.

(** ** The orchestrator: the first load *)

Module Load.

Import App.

(** What [getUserPlaylists] resolves to. *)
Record PlaylistsResponse := { playlists_items : list SpotifyPlaylist }.

(** A promise once it has settled. *)
Inductive Settled (A : Type) :=
| resolved (a : A)
| rejected.

Arguments resolved {A} _.
Arguments rejected {A}.

Definition failedPlaylists : string := "Failed to load playlists. Please try again.".

(** Truthiness of the stored token. *)
Definition truthy (token : option string) : bool :=
  match token with
  | Some s => negb (String.eqb s "")
  | None => false
  end.

Section Load.

Variable SpotifyUser : Type.

(** utils/validators. *)
Variable validatePlaylist : SpotifyPlaylist -> bool.

(** A setter call of the first load: one of those of the handlers, or one
    of the two that only the first load uses. *)
Inductive Write :=
| cell (u : Update)
| setUser (u : SpotifyUser)
| setPlaylists (ps : list SpotifyPlaylist).

Definition write (st : AppState SpotifyUser) (w : Write) : AppState SpotifyUser :=
  match w with
  | cell u => apply st u
  | setUser u =>
      {| user := Some u; playlists := playlists st; currentTrack := currentTrack st;
         error := error st; playedTracks := playedTracks st |}
  | setPlaylists ps =>
      {| user := user st; playlists := ps; currentTrack := currentTrack st;
         error := error st; playedTracks := playedTracks st |}
  end.

(** [getCurrentUser().then(setUser).catch(console.error)] *)
Definition onCurrentUser (r : Settled SpotifyUser) : list Write :=
  match r with
  | resolved u => [setUser u]
  | rejected => []
  end.

(** [getUserPlaylists().then(data => ...).catch(error => ...)] *)
Definition onUserPlaylists (r : Settled PlaylistsResponse) : list Write :=
  match r with
  | resolved data => [setPlaylists (List.filter validatePlaylist (playlists_items data))]
  | rejected => [cell (setError (Some failedPlaylists))]
  end.

(** The effect that runs once, on mount.  The two requests are sent
    together; [userFirst] tells which of them settles first. *)
Definition loadOnMount (token : option string) (currentUser : Settled SpotifyUser)
    (userPlaylists : Settled PlaylistsResponse) (userFirst : bool) : list Write :=
  if truthy token
  then if userFirst
       then onCurrentUser currentUser ++ onUserPlaylists userPlaylists
       else onUserPlaylists userPlaylists ++ onCurrentUser currentUser
  else [].

Definition written (st : AppState SpotifyUser) (ws : list Write) : AppState SpotifyUser :=
  fold_left write ws st.

(** The cells of [App] as it is mounted. *)
Definition initialApp : AppState SpotifyUser :=
  {| user := None; playlists := []; currentTrack := None; error := None; playedTracks := ∅ |}.

End Load.

Arguments cell {SpotifyUser} _.
Arguments setUser {SpotifyUser} _.
Arguments setPlaylists {SpotifyUser} _.
Arguments write {SpotifyUser} _ _.
Arguments written {SpotifyUser} _ _.
Arguments onCurrentUser {SpotifyUser} _.
Arguments onUserPlaylists {SpotifyUser} _ _.
Arguments loadOnMount {SpotifyUser} _ _ _ _ _.
Arguments initialApp {SpotifyUser}.

End Load.

(** ** The orchestrator: a playlist played to its end *)

Module Session.

Import App.

Section Session.

Variable validateTrack : SpotifyTrack -> bool.

(** The identifiers of the tracks the filters of [handlePlaylistSelect]
    leave. *)
Definition unplayed (response : TracksResponse) (played : gset string) : gset string :=
  list_to_set (List.map track_id (validTracksOf validateTrack response played)).

(** The user picks the same playlist again and again; [randoms] are the
    values of [Math.random()], one for each pick. *)
Definition picks (getPlaylistTracks : string -> option TracksResponse)
    (playlist : SpotifyPlaylist) (randoms : list Q) : list Request :=
  List.map (fun random => Select getPlaylistTracks random playlist) randoms.

End Session.

End Session.

(** ** The orchestrator: the routes *)

Module Routes.

(** The three [Route] elements of the component. *)
Inductive Route := callback | root | login.

(** What a route renders: one of the pages, or a [Navigate] to another
    route. *)
Inductive Element :=
| Callback
| Home
| Login
| Navigate (to : Route).

(** [element] of each route; [isAuthenticated] is
    [Boolean(getStoredAccessToken())], computed when [App] renders. *)
Definition element (isAuthenticated : bool) (r : Route) : Element :=
  match r with
  | callback => Callback
  | root => if isAuthenticated then Home else Navigate login
  | login => if isAuthenticated then Navigate root else Login
  end.

(** Following [Navigate] elements, at most [fuel] of them. *)
Fixpoint land (fuel : nat) (isAuthenticated : bool) (r : Route) : option Element :=
  match element isAuthenticated r with
  | Navigate to =>
      match fuel with
      | O => None
      | S fuel' => land fuel' isAuthenticated to
      end
  | page => Some page
  end.

End Routes.

(** ** More sample data *)

Module Scenario.

Import GamePlayer App Round Interval Sample.

Definition playing : Player :=
  {| isPlaying := true; GamePlayer.error := None; isInitialized := true |}.

(** A round played to its end and left by play again. *)
Definition events : list Event :=
  [Engine playing; Started; Tick; Tick; Tick; Pause; Tick; Toggled; Title "get back";
   Artist "the beatles"; Submit getBack 1730505600000; Again].

(** A component mounted before playback, then playing, then given
    another track while playing, then paused. *)
Definition effects : list Commit :=
  [Mount false; Update false true true; Update true true true; Update false true false].

(** A playlist as a list of playlists carries it: without its items. *)
Definition summary : SpotifyPlaylist :=
  {| playlist_id := "37i9dQZF1DXdLtD0qszB1w"; tracks_items := None |}.

Definition listed : AppState unit :=
  {| user := None; playlists := [summary]; currentTrack := Some getBack; App.error := None;
     playedTracks := {[ "4MLBqAEzNN89o2M9h92Z26" ]} |}.

(** The playlist picked twice before the catalogue answers, then play
    again once both picks have settled. *)
Definition overlapping : list Action :=
  [Call (Select api 0.75 playlist); Call (Select api 0.25 playlist); Settle 1; Settle 0;
   Call (App.Again api 0.75); Settle 0].

End Scenario.

(** * Properties *)

(** ** Numbers *)

Section NumberFacts.

Import Number.

Lemma gt_spec (a b : Q) : gt a b = true <-> b < a.
Proof.
  unfold gt. rewrite negb_true_iff, <- not_true_iff_false, Qle_bool_iff.
  split; [apply Qnot_le_lt | apply Qlt_not_le].
Qed.

Lemma Math_max_cases (a b : Q) :
  (a <= b /\ Math_max a b = b) \/ (b < a /\ Math_max a b = a).
Proof.
  unfold Math_max. destruct (Qle_bool a b) eqn:E.
  - left. split; [by apply Qle_bool_iff | done].
  - right. split; [| done].
    apply Qnot_le_lt. intros H. apply Qle_bool_iff in H. congruence.
Qed.

Lemma Math_max_mono (a x y : Q) : x <= y -> Math_max a x <= Math_max a y.
Proof.
  intros H.
  destruct (Math_max_cases a x) as [[? ->] | [? ->]],
           (Math_max_cases a y) as [[? ->] | [? ->]]; lra.
Qed.

Lemma Math_max_lower (a b : Q) : a <= Math_max a b.
Proof. destruct (Math_max_cases a b) as [[? ->] | [? ->]]; lra. Qed.

Lemma Math_max_upper (a b c : Q) : a <= c -> b <= c -> Math_max a b <= c.
Proof. intros. destruct (Math_max_cases a b) as [[? ->] | [? ->]]; lra. Qed.

Lemma Math_max_left (a b : Q) : b <= a -> Math_max a b == a.
Proof. intros. destruct (Math_max_cases a b) as [[? ->] | [? ->]]; lra. Qed.

Lemma Math_round_mono (x y : Q) : x <= y -> (Math_round x <= Math_round y)%Z.
Proof. intros H. apply Qfloor_resp_le. lra. Qed.

Lemma Math_round_int (z : Z) : Math_round (inject_Z z) = z.
Proof.
  unfold Math_round.
  assert (H1 : (z <= Qfloor (inject_Z z + (1 # 2)))%Z).
  { rewrite <- (Qfloor_Z z) at 1. apply Qfloor_resp_le. lra. }
  assert (H2 : (Qfloor (inject_Z z + (1 # 2)) < z + 1)%Z).
  { rewrite Zlt_Qlt. eapply Qle_lt_trans; [apply Qfloor_le |].
    rewrite inject_Z_plus. change (inject_Z 1) with 1. lra. }
  lia.
Qed.

Lemma Math_round_bounds (a b : Z) (x : Q) :
  inject_Z a <= x <= inject_Z b -> (a <= Math_round x <= b)%Z.
Proof.
  intros [Ha Hb]. split.
  - rewrite <- (Math_round_int a). by apply Math_round_mono.
  - rewrite <- (Math_round_int b). by apply Math_round_mono.
Qed.

(** *** Rounding to binary64 *)

Lemma two_gt_1 : 1 < 2.
Proof. reflexivity. Qed.

Lemma two_neq_0 : ~ 2 == 0.
Proof. discriminate. Qed.

Lemma pow2_pos (e : Z) : 0 < 2 ^ e.
Proof. apply Qpower_0_lt. reflexivity. Qed.

Lemma pow2_le (a b : Z) : (a <= b)%Z -> 2 ^ a <= 2 ^ b.
Proof. intros H. apply Qpower_le_compat_l; [exact H | discriminate]. Qed.

Lemma pow2_succ (e : Z) : 2 ^ (e + 1) == 2 * 2 ^ e.
Proof. rewrite Qpower_plus by exact two_neq_0. change (2 ^ 1) with 2. ring. Qed.

Lemma pow2_Z (n : Z) : (0 <= n)%Z -> 2 ^ n == inject_Z (2 ^ n).
Proof. intros H. symmetry. apply (Zpower_Qpower 2 n H). Qed.

(** The exponent brackets the number between two powers of two. *)
Lemma exponent_spec (x : Q) :
  0 < x -> 2 ^ exponent x <= x /\ x < 2 ^ (exponent x + 1).
Proof.
  intros Hx. destruct x as [n d]. unfold exponent. cbn [Qnum Qden].
  assert (Hn : (0 < n)%Z).
  { unfold Qlt in Hx. cbn in Hx. lia. }
  set (a := Z.log2 n). set (b := Z.log2 (Zpos d)).
  assert (Ha : (0 <= a)%Z) by apply Z.log2_nonneg.
  assert (Hb : (0 <= b)%Z) by apply Z.log2_nonneg.
  destruct (Z.log2_spec n Hn) as [Ha1 Ha2]. fold a in Ha1, Ha2.
  destruct (Z.log2_spec (Zpos d) (Pos2Z.is_pos d)) as [Hb1 Hb2]. fold b in Hb1, Hb2.
  assert (Hlow : 2 ^ (a - b - 1) <= n # d).
  { replace (a - b - 1)%Z with (a - (b + 1))%Z by lia.
    rewrite Qpower_minus by exact two_neq_0.
    rewrite (pow2_Z a) by lia. rewrite (pow2_Z (b + 1)) by lia.
    rewrite (Qmake_Qdiv n d).
    apply Qle_shift_div_r.
    { change 0 with (inject_Z 0). rewrite <- Zlt_Qlt. lia. }
    unfold Qdiv. rewrite <- Qmult_assoc, (Qmult_comm (/ _)), Qmult_assoc.
    apply Qle_shift_div_l.
    { change 0 with (inject_Z 0). rewrite <- Zlt_Qlt. lia. }
    rewrite <- !inject_Z_mult, <- Zle_Qle. nia. }
  assert (Hhigh : (n # d) < 2 ^ (a - b + 1)).
  { replace (a - b + 1)%Z with (a + 1 - b)%Z by lia.
    rewrite Qpower_minus by exact two_neq_0.
    rewrite (pow2_Z (a + 1)) by lia. rewrite (pow2_Z b) by lia.
    rewrite (Qmake_Qdiv n d).
    apply Qlt_shift_div_l.
    { change 0 with (inject_Z 0). rewrite <- Zlt_Qlt. lia. }
    unfold Qdiv. rewrite <- Qmult_assoc, (Qmult_comm (/ _)), Qmult_assoc.
    apply Qlt_shift_div_r.
    { change 0 with (inject_Z 0). rewrite <- Zlt_Qlt. lia. }
    rewrite <- !inject_Z_mult, <- Zlt_Qlt. nia. }
  destruct (Qle_bool (2 ^ (a - b)) (n # d)) eqn:E.
  - apply Qle_bool_iff in E. split; [exact E | exact Hhigh].
  - split; [exact Hlow |].
    replace (a - b - 1 + 1)%Z with (a - b)%Z by lia.
    apply Qnot_le_lt. intros H. apply Qle_bool_iff in H. congruence.
Qed.

Lemma exponent_mono (x y : Q) : 0 < x -> x <= y -> (exponent x <= exponent y)%Z.
Proof.
  intros Hx Hxy.
  assert (Hy : 0 < y) by (eapply Qlt_le_trans; [exact Hx | exact Hxy]).
  destruct (exponent_spec x Hx) as [Hx1 _].
  destruct (exponent_spec y Hy) as [_ Hy2].
  assert (H : 2 ^ exponent x < 2 ^ (exponent y + 1)).
  { eapply Qle_lt_trans; [exact Hx1 |]. eapply Qle_lt_trans; [exact Hxy | exact Hy2]. }
  apply Qpower_lt_compat_l_inv in H; [lia | exact two_gt_1].
Qed.

Lemma nearest_even_floor (x : Q) : (Qfloor x <= nearest_even x <= Qfloor x + 1)%Z.
Proof.
  unfold nearest_even.
  destruct (Qcompare (x - inject_Z (Qfloor x)) (1 # 2)); [| lia | lia].
  destruct (Z.even (Qfloor x)); lia.
Qed.

(** Rounding to an integer is monotone and leaves the integers alone. *)
Lemma nearest_even_mono (x y : Q) : x <= y -> (nearest_even x <= nearest_even y)%Z.
Proof.
  intros Hxy. pose proof (Qfloor_resp_le x y Hxy) as Hf.
  pose proof (nearest_even_floor x) as Hx. pose proof (nearest_even_floor y) as Hy.
  destruct (Z.eq_dec (Qfloor x) (Qfloor y)) as [E | NE]; [| lia].
  clear Hx Hy Hf. unfold nearest_even. rewrite <- E.
  destruct (Qcompare_spec (x - inject_Z (Qfloor x)) (1 # 2)) as [Hx | Hx | Hx],
           (Qcompare_spec (y - inject_Z (Qfloor x)) (1 # 2)) as [Hy | Hy | Hy];
    try (destruct (Z.even (Qfloor x))); try lia; lra.
Qed.

Lemma nearest_even_Z (x : Q) (z : Z) : x == inject_Z z -> nearest_even x = z.
Proof.
  intros H. unfold nearest_even.
  assert (Hf : Qfloor x = z) by (rewrite H; apply Qfloor_Z).
  rewrite Hf.
  destruct (Qcompare_spec (x - inject_Z z) (1 # 2)) as [Hx | Hx | Hx]; [lra | reflexivity | lra].
Qed.

Lemma nearest_even_le (x : Q) (z : Z) : x <= inject_Z z -> (nearest_even x <= z)%Z.
Proof.
  intros H. rewrite <- (nearest_even_Z (inject_Z z) z) by reflexivity.
  by apply nearest_even_mono.
Qed.

Lemma nearest_even_ge (x : Q) (z : Z) : inject_Z z <= x -> (z <= nearest_even x)%Z.
Proof.
  intros H. rewrite <- (nearest_even_Z (inject_Z z) z) at 1 by reflexivity.
  by apply nearest_even_mono.
Qed.

Lemma ulp_pos (x : Q) : 0 < ulp x.
Proof. apply pow2_pos. Qed.

Lemma round_pos_nonneg (x : Q) : 0 < x -> 0 <= round_pos x.
Proof.
  intros Hx. unfold round_pos. pose proof (ulp_pos x) as Hu.
  apply Qmult_le_0_compat; [| lra].
  change 0 with (inject_Z 0). rewrite <- Zle_Qle.
  apply nearest_even_ge. apply Qle_shift_div_l; [exact Hu |].
  change (inject_Z 0) with 0. lra.
Qed.

(** A rounded number stays below the power of two above it. *)
Lemma round_pos_upper (x : Q) :
  0 < x -> round_pos x <= 2 ^ (Z.max (exponent x) (-1022) + 1).
Proof.
  intros Hx. unfold round_pos, ulp.
  set (e := Z.max (exponent x) (-1022)).
  pose proof (pow2_pos (e - 52)) as Hu.
  destruct (exponent_spec x Hx) as [_ Hhi].
  assert (He : 2 ^ (e + 1) == inject_Z (2 ^ 53) * 2 ^ (e - 52)).
  { rewrite <- (pow2_Z 53) by lia. rewrite <- Qpower_plus by exact two_neq_0.
    replace (53 + (e - 52))%Z with (e + 1)%Z by lia. reflexivity. }
  rewrite He. apply Qmult_le_compat_r; [| lra].
  rewrite <- Zle_Qle.
  apply nearest_even_le. apply Qle_shift_div_r; [exact Hu |].
  rewrite <- He. apply Qlt_le_weak. eapply Qlt_le_trans; [exact Hhi |].
  apply pow2_le. lia.
Qed.

(** A rounded normal number stays above the power of two below it. *)
Lemma round_pos_lower (x : Q) :
  0 < x -> (-1022 <= exponent x)%Z -> 2 ^ exponent x <= round_pos x.
Proof.
  intros Hx Hnormal. unfold round_pos, ulp.
  rewrite Z.max_l by lia. set (e := exponent x).
  pose proof (pow2_pos (e - 52)) as Hu.
  destruct (exponent_spec x Hx) as [Hlo _]. fold e in Hlo.
  assert (He : 2 ^ e == inject_Z (2 ^ 52) * 2 ^ (e - 52)).
  { rewrite <- (pow2_Z 52) by lia. rewrite <- Qpower_plus by exact two_neq_0.
    replace (52 + (e - 52))%Z with e by lia. reflexivity. }
  rewrite He. apply Qmult_le_compat_r; [| lra].
  rewrite <- Zle_Qle.
  apply nearest_even_ge. apply Qle_shift_div_l; [exact Hu |].
  rewrite <- He. exact Hlo.
Qed.

(** Within a binade the spacing is the same; across binades the power of
    two between them separates the results. *)
Lemma round_pos_mono (x y : Q) : 0 < x -> x <= y -> round_pos x <= round_pos y.
Proof.
  intros Hx Hxy.
  assert (Hy : 0 < y) by (eapply Qlt_le_trans; [exact Hx | exact Hxy]).
  pose proof (exponent_mono x y Hx Hxy) as He.
  destruct (Z.eq_dec (Z.max (exponent x) (-1022)) (Z.max (exponent y) (-1022))) as [E | NE].
  - unfold round_pos, ulp. rewrite <- E.
    set (u := 2 ^ (Z.max (exponent x) (-1022) - 52)).
    assert (Hu : 0 < u) by apply pow2_pos.
    apply Qmult_le_compat_r; [| lra].
    rewrite <- Zle_Qle. apply nearest_even_mono.
    apply Qmult_le_compat_r; [exact Hxy |]. apply Qlt_le_weak, Qinv_lt_0_compat, Hu.
  - eapply Qle_trans; [apply (round_pos_upper x Hx) |].
    eapply Qle_trans; [| apply (round_pos_lower y Hy); lia].
    apply pow2_le. lia.
Qed.

(** Rounding is monotone. *)
Lemma fl_mono (x y : Q) : x <= y -> fl x <= fl y.
Proof.
  intros Hxy. unfold fl.
  destruct (Qcompare_spec x 0) as [Hx | Hx | Hx],
           (Qcompare_spec y 0) as [Hy | Hy | Hy];
    try (assert (0 <= round_pos (- x)) by (apply round_pos_nonneg; lra));
    try (assert (0 <= round_pos y) by (apply round_pos_nonneg; lra));
    try (assert (round_pos (- y) <= round_pos (- x)) by (apply round_pos_mono; lra));
    try (assert (round_pos x <= round_pos y) by (apply round_pos_mono; lra));
    lra.
Qed.

Lemma fl_proper (x y : Q) : x == y -> fl x == fl y.
Proof.
  intros H. apply Qle_antisym; apply fl_mono; rewrite H; apply Qle_refl.
Qed.

(** An integer of at most 53 bits is a binary64 number. *)
Lemma fl_Z (z : Z) : (0 <= z <= 2 ^ 53)%Z -> fl (inject_Z z) == inject_Z z.
Proof.
  intros Hz. unfold fl.
  destruct (Qcompare_spec (inject_Z z) 0) as [H0 | H0 | H0].
  - by symmetry.
  - change 0 with (inject_Z 0) in H0. rewrite <- Zlt_Qlt in H0. lia.
  - unfold round_pos, ulp.
    destruct (exponent_spec (inject_Z z) H0) as [Hlo Hhi].
    set (e := exponent (inject_Z z)) in *.
    assert (He0 : (0 <= e)%Z).
    { assert (H : 2 ^ 0 < 2 ^ (e + 1)).
      { eapply Qle_lt_trans; [| exact Hhi]. change (2 ^ 0) with (inject_Z 1).
        rewrite <- Zle_Qle. change 0 with (inject_Z 0) in H0. rewrite <- Zlt_Qlt in H0. lia. }
      apply (Qpower_lt_compat_l_inv 2 0%Z (e + 1)%Z) in H; [lia | exact two_gt_1]. }
    assert (He53 : (e <= 53)%Z).
    { assert (H : 2 ^ e < 2 ^ (53 + 1)).
      { eapply Qle_lt_trans; [exact Hlo |]. rewrite (pow2_Z (53 + 1)) by lia.
        rewrite <- Zlt_Qlt. lia. }
      apply (Qpower_lt_compat_l_inv 2 e (53 + 1)%Z) in H; [lia | exact two_gt_1]. }
    rewrite Z.max_l by lia.
    destruct (Z.eq_dec e 53%Z) as [E | Hne].
    + assert (Hz53 : z = (2 ^ 53)%Z).
      { rewrite E, (pow2_Z 53) in Hlo by lia. rewrite <- Zle_Qle in Hlo. lia. }
      rewrite E, Hz53. by vm_compute.
    + assert (Hu : 2 ^ (e - 52) == / inject_Z (2 ^ (52 - e))).
      { replace (e - 52)%Z with (- (52 - e))%Z by lia.
        rewrite Qpower_opp, (pow2_Z (52 - e)) by lia. reflexivity. }
      assert (Hpos : 0 < inject_Z (2 ^ (52 - e))).
      { change 0 with (inject_Z 0). rewrite <- Zlt_Qlt. apply Z.pow_pos_nonneg; lia. }
      rewrite (nearest_even_Z _ (z * 2 ^ (52 - e))).
      * rewrite Hu, inject_Z_mult. field. lra.
      * rewrite Hu, inject_Z_mult. field. lra.
Qed.

(** The bracket determines the exponent. *)
Lemma exponent_unique (x : Q) (e : Z) :
  2 ^ e <= x -> x < 2 ^ (e + 1) -> exponent x = e.
Proof.
  intros Hlo Hhi.
  assert (Hx : 0 < x) by (eapply Qlt_le_trans; [apply (pow2_pos e) | exact Hlo]).
  destruct (exponent_spec x Hx) as [Hlo' Hhi'].
  assert (H1 : 2 ^ e < 2 ^ (exponent x + 1)) by (eapply Qle_lt_trans; eassumption).
  assert (H2 : 2 ^ exponent x < 2 ^ (e + 1)) by (eapply Qle_lt_trans; eassumption).
  apply Qpower_lt_compat_l_inv in H1; [| exact two_gt_1].
  apply Qpower_lt_compat_l_inv in H2; [| exact two_gt_1].
  lia.
Qed.

Lemma fl_pos (x : Q) : 0 < x -> fl x = round_pos x.
Proof.
  intros Hx. unfold fl.
  destruct (Qcompare_spec x 0) as [H | H | H]; [lra | lra | reflexivity].
Qed.

(** A number that rounds to itself and lies below 1 lies one spacing
    below 1 at least. *)
Lemma below_one (r : Q) : fl r == r -> 0 <= r -> r < 1 -> r <= 1 - 2 ^ (-53).
Proof.
  intros Hfl H0 H1.
  assert (Hhalf : 2 ^ (-1) <= 1 - 2 ^ (-53)) by (by vm_compute).
  destruct (Qlt_le_dec r (2 ^ (-1))) as [Hsmall | Hbig]; [lra |].
  assert (Hr : 0 < r) by (eapply Qlt_le_trans; [apply (pow2_pos (-1)) | exact Hbig]).
  assert (He : exponent r = (-1)%Z) by (by apply exponent_unique).
  rewrite (fl_pos r Hr) in Hfl. unfold round_pos, ulp in Hfl. rewrite He in Hfl.
  change (Z.max (-1) (-1022) - 52)%Z with (-53)%Z in Hfl.
  set (m := nearest_even (r / 2 ^ (-53))) in *.
  assert (Hm : (m < 2 ^ 53)%Z).
  { rewrite Zlt_Qlt. apply Qmult_lt_r with (2 ^ (-53)); [apply pow2_pos |].
    rewrite Hfl. eapply Qlt_le_trans; [exact H1 |]. by vm_compute. }
  rewrite <- Hfl.
  assert (Hm' : inject_Z m <= inject_Z (2 ^ 53 - 1)) by (rewrite <- Zle_Qle; lia).
  apply Qle_trans with (inject_Z (2 ^ 53 - 1) * 2 ^ (-53)).
  - apply Qmult_le_compat_r; [exact Hm' | apply Qlt_le_weak, pow2_pos].
  - by vm_compute.
Qed.

Lemma inject_Z_pred (z : Z) : inject_Z (z - 1) == inject_Z z - 1.
Proof.
  replace (z - 1)%Z with (z + -1)%Z by lia. rewrite inject_Z_plus.
  change (inject_Z (-1)) with (-1). ring.
Qed.

Lemma nearest_even_below (x : Q) (z : Z) :
  x < inject_Z z - (1 # 2) -> (nearest_even x <= z - 1)%Z.
Proof.
  intros H. pose proof (nearest_even_floor x) as Hne.
  assert (Hf : (Qfloor x <= z - 1)%Z).
  { assert (Hlt : (Qfloor x < z)%Z); [| lia].
    rewrite Zlt_Qlt. eapply Qle_lt_trans; [apply Qfloor_le |]. lra. }
  destruct (Z.eq_dec (Qfloor x) (z - 1)%Z) as [E | NE]; [| lia].
  unfold nearest_even. rewrite E.
  destruct (Qcompare_spec (x - inject_Z (z - 1)) (1 # 2)) as [Hc | Hc | Hc]; [| lia |].
  - rewrite inject_Z_pred in Hc. lra.
  - rewrite inject_Z_pred in Hc. lra.
Qed.

(** The largest product of a number below 1 and a length [n] rounds to
    less than [n]. *)
Lemma fl_below_length (n : Z) :
  (0 < n <= 2 ^ 53)%Z -> fl (inject_Z n * (1 - 2 ^ (-53))) < inject_Z n.
Proof.
  intros Hn.
  set (E := Z.log2 n).
  assert (HE : (0 <= E)%Z) by apply Z.log2_nonneg.
  destruct (Z.log2_spec n) as [Hlo Hhi]; [lia |]. fold E in Hlo, Hhi.
  assert (HE53 : (E <= 53)%Z).
  { destruct (Z.le_gt_cases E 53%Z) as [H | H]; [exact H |].
    assert (2 ^ 54 <= 2 ^ E)%Z by (apply Z.pow_le_mono_r; lia). lia. }
  set (y := inject_Z n * (1 - 2 ^ (-53))).
  assert (Hc : 1 - 2 ^ (-53) == inject_Z (2 ^ 53 - 1) * 2 ^ (-53)) by (by vm_compute).
  assert (Hc0 : 0 < 1 - 2 ^ (-53)) by (by vm_compute).
  assert (Hc1 : 1 - 2 ^ (-53) < 1) by (by vm_compute).
  assert (HnQ : 0 < inject_Z n) by (change 0 with (inject_Z 0); rewrite <- Zlt_Qlt; lia).
  assert (Hy : 0 < y) by (apply Qmult_lt_0_compat; [exact HnQ | exact Hc0]).
  assert (Hyn : y < inject_Z n).
  { unfold y. rewrite <- (Qmult_1_r (inject_Z n)) at 2. by apply Qmult_lt_l. }
  rewrite (fl_pos y Hy). unfold round_pos, ulp.
  destruct (Z.eq_dec n (2 ^ E)%Z) as [Hpow | Hnpow].
  - (* the length is a power of two: the product is a binary64 number *)
    assert (Hexp : exponent y = (E - 1)%Z).
    { apply exponent_unique.
      - unfold y. rewrite Hpow, <- (pow2_Z E) by lia.
        replace E with (E - 1 + 1)%Z at 2 by lia. rewrite pow2_succ.
        assert (Hp := pow2_pos (E - 1)).
        assert (Hc2 : 1 <= 2 * (1 - 2 ^ (-53))) by (by vm_compute).
        rewrite <- (Qmult_1_r (2 ^ (E - 1))) at 1. rewrite <- Qmult_assoc.
        rewrite (Qmult_comm 2), <- Qmult_assoc. apply Qmult_le_l; [exact Hp |].
        rewrite Qmult_comm. exact Hc2.
      - replace (E - 1 + 1)%Z with E by lia. rewrite (pow2_Z E) by lia.
        rewrite <- Hpow. exact Hyn. }
    rewrite Hexp, Z.max_l by lia. replace (E - 1 - 52)%Z with (E - 53)%Z by lia.
    assert (Hu : 0 < 2 ^ (E - 53)) by apply pow2_pos.
    assert (Hy' : y == inject_Z (2 ^ 53 - 1) * 2 ^ (E - 53)).
    { unfold y. rewrite Hc, Hpow, <- (pow2_Z E) by lia.
      replace (E - 53)%Z with (E + -53)%Z by lia.
      rewrite (Qpower_plus 2 E (-53)) by exact two_neq_0. ring. }
    rewrite (nearest_even_Z _ (2 ^ 53 - 1)).
    + rewrite <- Hy'. exact Hyn.
    + rewrite Hy'. field. lra.
  - (* otherwise the product falls short of the length by more than half
       a spacing *)
    assert (Hgt : (2 ^ E + 1 <= n)%Z) by lia.
    assert (HE52 : (E <= 52)%Z).
    { destruct (Z.le_gt_cases E 52%Z) as [H | H]; [exact H |].
      assert (2 ^ 53 <= 2 ^ E)%Z by (apply Z.pow_le_mono_r; lia). lia. }
    assert (Hp : 0 < 2 ^ E) by apply pow2_pos.
    assert (HpZ : 2 ^ E == inject_Z (2 ^ E)) by (apply pow2_Z; lia).
    assert (Hn1 : 2 ^ E + 1 <= inject_Z n).
    { rewrite HpZ. change 1 with (inject_Z 1). rewrite <- inject_Z_plus, <- Zle_Qle. exact Hgt. }
    assert (Hn2 : inject_Z n < 2 * 2 ^ E).
    { rewrite <- pow2_succ, (pow2_Z (E + 1)) by lia. rewrite <- Zlt_Qlt. exact Hhi. }
    assert (Hn53 : inject_Z n * 2 ^ (-53) <= 1).
    { assert (H53 : inject_Z n <= inject_Z (2 ^ 53)) by (rewrite <- Zle_Qle; lia).
      assert (Hk : inject_Z (2 ^ 53) * 2 ^ (-53) == 1) by (by vm_compute).
      rewrite <- Hk. apply Qmult_le_compat_r; [exact H53 | by vm_compute]. }
    assert (Hexp : exponent y = E).
    { apply exponent_unique.
      - unfold y. lra.
      - rewrite pow2_succ. lra. }
    rewrite Hexp, Z.max_l by lia.
    set (u := 2 ^ (E - 52)).
    assert (Hu : 0 < u) by apply pow2_pos.
    set (N := (n * 2 ^ (52 - E))%Z).
    assert (Huw : u * inject_Z (2 ^ (52 - E)) == 1).
    { unfold u. rewrite <- (pow2_Z (52 - E)) by lia.
      rewrite <- Qpower_plus by exact two_neq_0.
      replace (E - 52 + (52 - E))%Z with 0%Z by lia. reflexivity. }
    assert (HN : inject_Z N * u == inject_Z n).
    { unfold N. rewrite inject_Z_mult. rewrite <- Qmult_assoc, (Qmult_comm _ u), Huw. ring. }
    assert (Hup : u * inject_Z (2 ^ 52) == 2 ^ E).
    { unfold u. rewrite <- (pow2_Z 52) by lia. rewrite <- Qpower_plus by exact two_neq_0.
      replace (E - 52 + 52)%Z with E by lia. reflexivity. }
    assert (Hhalf : y / u < inject_Z N - (1 # 2)).
    { apply Qlt_shift_div_r; [exact Hu |].
      assert (Hk : inject_Z (2 ^ 52) * 2 ^ (-53) == 1 # 2) by (by vm_compute).
      assert (Hk' : 2 ^ E * 2 ^ (-53) == u * (1 # 2)).
      { rewrite <- Hup, <- Qmult_assoc, Hk. reflexivity. }
      unfold y. nra. }
    apply nearest_even_below in Hhalf.
    apply Qle_lt_trans with (inject_Z (N - 1) * u).
    + apply Qmult_le_compat_r; [| lra]. rewrite <- Zle_Qle. exact Hhalf.
    + rewrite inject_Z_pred. lra.
Qed.

(** Rounding keeps a value on its side of an integer of at most 53 bits. *)
Lemma fl_lower (a : Z) (x : Q) :
  (0 <= a <= 2 ^ 53)%Z -> inject_Z a <= x -> inject_Z a <= fl x.
Proof.
  intros Ha H. apply Qle_trans with (fl (inject_Z a)).
  - apply Qle_lteq. right. symmetry. by apply fl_Z.
  - by apply fl_mono.
Qed.

Lemma fl_upper (b : Z) (x : Q) :
  (0 <= b <= 2 ^ 53)%Z -> x <= inject_Z b -> fl x <= inject_Z b.
Proof.
  intros Hb H. apply Qle_trans with (fl (inject_Z b)).
  - by apply fl_mono.
  - apply Qle_lteq. right. by apply fl_Z.
Qed.

Lemma fl_bounds (a b : Z) (x : Q) :
  (0 <= a <= 2 ^ 53)%Z -> (0 <= b <= 2 ^ 53)%Z ->
  inject_Z a <= x <= inject_Z b -> inject_Z a <= fl x <= inject_Z b.
Proof. intros Ha Hb [H1 H2]. split; [by apply fl_lower | by apply fl_upper]. Qed.

(** [Math.random() * length]: for a number [random] in [0,1) and a length
    of at most 53 bits, the rounded product is below the length. *)
Lemma mul_below_length (random : Q) (n : Z) :
  fl random == random -> 0 <= random < 1 -> (0 < n <= 2 ^ 53)%Z ->
  0 <= random ⊗ inject_Z n < inject_Z n.
Proof.
  intros Hfl [H0 H1] Hn. unfold mul.
  assert (HnQ : 0 < inject_Z n) by (change 0 with (inject_Z 0); rewrite <- Zlt_Qlt; lia).
  split.
  - apply (fl_lower 0); [done |]. change (inject_Z 0) with 0.
    apply Qmult_le_0_compat; [done | by apply Qlt_le_weak].
  - eapply Qle_lt_trans; [| by apply fl_below_length].
    apply fl_mono. rewrite (Qmult_comm random). apply Qmult_le_l; [done |].
    by apply below_one.
Qed.


(** ** The Score Calculator *)


(** The rounded number is within half a spacing of the exact one. *)
Lemma nearest_even_error (x : Q) :
  - (1 # 2) <= inject_Z (nearest_even x) - x <= 1 # 2.
Proof.
  pose proof (Qfloor_le x) as Hlo. pose proof (Qlt_floor x) as Hhi.
  rewrite inject_Z_plus in Hhi. change (inject_Z 1) with 1 in Hhi.
  unfold nearest_even.
  destruct (Qcompare_spec (x - inject_Z (Qfloor x)) (1 # 2)) as [H | H | H].
  - destruct (Z.even (Qfloor x)); [lra |].
    rewrite inject_Z_plus. change (inject_Z 1) with 1. lra.
  - lra.
  - rewrite inject_Z_plus. change (inject_Z 1) with 1. lra.
Qed.

Lemma fl_error (x : Q) :
  0 < x -> - ((1 # 2) * ulp x) <= fl x - x <= (1 # 2) * ulp x.
Proof.
  intros Hx. rewrite (fl_pos x Hx). unfold round_pos.
  pose proof (ulp_pos x) as Hu. pose proof (nearest_even_error (x / ulp x)) as He.
  set (u := ulp x) in *. set (q := x / u) in *.
  set (m := inject_Z (nearest_even q)) in *.
  assert (Hd : m * u - x == (m - q) * u) by (unfold q; field; lra).
  assert (Hlo : - (1 # 2) * u <= (m - q) * u) by (apply Qmult_le_compat_r; lra).
  assert (Hhi : (m - q) * u <= (1 # 2) * u) by (apply Qmult_le_compat_r; lra).
  rewrite Hd. split; lra.
Qed.

(** A number of at most 53 bits at an admissible exponent rounds to
    itself. *)
Lemma fl_representable (m e : Z) :
  (0 <= m <= 2 ^ 53)%Z -> (-1022 <= e)%Z ->
  fl (inject_Z m * 2 ^ (e - 52)) == inject_Z m * 2 ^ (e - 52).
Proof.
  intros Hm He.
  pose proof (pow2_pos (e - 52)) as Hu.
  destruct (Z.eq_dec m 0%Z) as [-> | Hm0].
  { assert (H0 : inject_Z 0 * 2 ^ (e - 52) == 0) by ring.
    rewrite (fl_proper _ _ H0), H0. reflexivity. }
  set (y := inject_Z m * 2 ^ (e - 52)).
  assert (HmQ : 0 < inject_Z m) by (change 0 with (inject_Z 0); rewrite <- Zlt_Qlt; lia).
  assert (Hy : 0 < y) by (by apply Qmult_lt_0_compat).
  rewrite (fl_pos y Hy). unfold round_pos, ulp.
  destruct (exponent_spec y Hy) as [Hlo Hhi].
  set (k := exponent y) in *.
  assert (Htop : y <= 2 ^ (e + 1)).
  { replace (e + 1)%Z with (53 + (e - 52))%Z by lia.
    rewrite Qpower_plus by exact two_neq_0. rewrite (pow2_Z 53) by lia.
    unfold y. apply Qmult_le_compat_r; [| lra]. rewrite <- Zle_Qle. lia. }
  assert (Hk : (k <= e + 1)%Z).
  { assert (H : 2 ^ k < 2 ^ (e + 1 + 1)).
    { eapply Qle_lt_trans; [exact Hlo |]. eapply Qle_lt_trans; [exact Htop |].
      apply Qpower_lt_compat_l; [lia | exact two_gt_1]. }
    apply Qpower_lt_compat_l_inv in H; [lia | exact two_gt_1]. }
  destruct (Z.eq_dec k (e + 1)%Z) as [Ek | Nk].
  - (* the top of the range: the next power of two *)
    assert (Hy' : y == 2 ^ (e + 1)).
    { apply Qle_antisym; [exact Htop |]. rewrite <- Ek. exact Hlo. }
    rewrite Ek, Z.max_l by lia.
    replace (e + 1 - 52)%Z with (e - 51)%Z by lia.
    assert (Hsplit : 2 ^ (e + 1) == inject_Z (2 ^ 52) * 2 ^ (e - 51)).
    { rewrite <- (pow2_Z 52) by lia. rewrite <- Qpower_plus by exact two_neq_0.
      replace (52 + (e - 51))%Z with (e + 1)%Z by lia. reflexivity. }
    pose proof (pow2_pos (e - 51)) as Hu'.
    rewrite (nearest_even_Z _ (2 ^ 52)).
    + rewrite Hy'. symmetry. exact Hsplit.
    + rewrite Hy', Hsplit. field. lra.
  - (* otherwise the spacing of the result divides that of the number *)
    set (e' := Z.max k (-1022)).
    assert (He' : (e' <= e)%Z) by lia.
    pose proof (pow2_pos (e' - 52)) as Hu'.
    assert (Hsplit : 2 ^ (e - 52) == inject_Z (2 ^ (e - e')) * 2 ^ (e' - 52)).
    { rewrite <- (pow2_Z (e - e')) by lia. rewrite <- Qpower_plus by exact two_neq_0.
      replace (e - e' + (e' - 52))%Z with (e - 52)%Z by lia. reflexivity. }
    rewrite (nearest_even_Z _ (m * 2 ^ (e - e'))).
    + unfold y. rewrite Hsplit, inject_Z_mult. ring.
    + unfold y. rewrite Hsplit, inject_Z_mult. field. lra.
Qed.

(** Rounding a rounded number changes nothing. *)
Lemma fl_idempotent (x : Q) : fl (fl x) == fl x.
Proof.
  assert (Hpos : forall y, 0 < y -> fl (round_pos y) == round_pos y).
  { intros y Hy. unfold round_pos, ulp.
    set (e := Z.max (exponent y) (-1022)).
    apply fl_representable; [| lia]. split.
    - apply nearest_even_ge. apply Qle_shift_div_l; [apply pow2_pos |].
      change (inject_Z 0) with 0. lra.
    - apply nearest_even_le. apply Qle_shift_div_r; [apply pow2_pos |].
      destruct (exponent_spec y Hy) as [_ Hhi].
      rewrite <- (pow2_Z 53) by lia. rewrite <- Qpower_plus by exact two_neq_0.
      apply Qlt_le_weak. eapply Qlt_le_trans; [exact Hhi |]. apply pow2_le. lia. }
  assert (Hneg : forall y, fl (- y) == - fl y).
  { intros y. unfold fl.
    destruct (Qcompare_spec y 0) as [H | H | H],
             (Qcompare_spec (- y) 0) as [H' | H' | H']; try (exfalso; lra).
    - ring.
    - ring.
    - assert (E : round_pos (- - y) == round_pos y).
      { apply Qle_antisym; apply round_pos_mono; lra. }
      rewrite E. reflexivity. }
  destruct (Qcompare_spec x 0) as [H | H | H].
  - assert (H0 : fl x == 0) by (by rewrite (fl_proper _ _ H)).
    rewrite (fl_proper _ _ H0), H0. reflexivity.
  - assert (Hx : fl x == - round_pos (- x)).
    { unfold fl. destruct (Qcompare_spec x 0) as [H' | H' | H']; [lra | reflexivity | lra]. }
    rewrite (fl_proper _ _ Hx), Hx, Hneg, Hpos by lra. reflexivity.
  - rewrite (fl_pos x H). by apply Hpos.
Qed.

(** The function on well-known cases. *)
Example fl_tenth : lit 0.1 == 3602879701896397 # 36028797018963968.
Proof. by vm_compute. Qed.

Example fl_sum : lit 0.1 ⊕ lit 0.2 == 5404319552844596 # 18014398509481984.
Proof. by vm_compute. Qed.

Example fl_ties_to_even :
  fl (inject_Z (2 ^ 53 + 1)) == inject_Z (2 ^ 53)
  /\ fl (inject_Z (2 ^ 53 + 3)) == inject_Z (2 ^ 53 + 4).
Proof. by vm_compute. Qed.

Example fl_underflow : fl (3 * 2 ^ (-1075)) == 2 ^ (-1073).
Proof. by vm_compute. Qed.

End NumberFacts.

(** ** The Score Calculator *)

(** From here on [fl] is used through the lemmas above. *)
#[global] Opaque Number.fl.

Section ScoreCalculator.

Import Number GamePlayer.

Variable calculateSimilarity : string -> string -> Q.

Abbreviation calculateScore := (calculateScore calculateSimilarity).

(** [calculateScore] in terms of its three constants. *)
Lemma calculateScore_unfold (track : SpotifyTrack) (artist0 : SpotifyArtist)
    (rest : list SpotifyArtist) (g : GameState) :
  artists track = artist0 :: rest ->
  let titleSimilarity := calculateSimilarity (titleGuess g) (track_name track) in
  let artistSimilarity := calculateSimilarity (artistGuess g) (artist_name artist0) in
  calculateScore track g =
    Some {| score := scoreOf (averageSimilarity titleSimilarity artistSimilarity)
                             (timeBonus (timer g));
            isCorrect := gt titleSimilarity (lit 0.8) && gt artistSimilarity (lit 0.8) |}.
Proof. intros H. unfold GamePlayer.calculateScore. by rewrite H. Qed.

Lemma averageSimilarity_bounds (a b : Q) :
  0 <= a <= 1 -> 0 <= b <= 1 -> 0 <= averageSimilarity a b <= 1.
Proof.
  intros Ha Hb. unfold GamePlayer.averageSimilarity, div, add.
  assert (H : 0 <= fl (a + b) <= 2).
  { apply (fl_bounds 0 2); [done | done |]. unfold inject_Z. lra. }
  apply (fl_bounds 0 1); [done | done |].
  unfold inject_Z.
  split; [apply Qle_shift_div_l | apply Qle_shift_div_r]; lra.
Qed.

Lemma timeBonus_nonneg (t : Q) : 0 <= timeBonus t.
Proof. apply Math_max_lower. Qed.

Lemma timeBonus_le_1 (t : Q) : 0 <= t -> timeBonus t <= 1.
Proof.
  intros Ht. unfold GamePlayer.timeBonus, sub, div.
  apply Math_max_upper; [lra |].
  apply (fl_upper 1); [done |].
  assert (0 <= fl (t / 30)); [| unfold inject_Z; lra].
  apply (fl_lower 0); [done |]. apply Qle_shift_div_l; unfold inject_Z; lra.
Qed.

Lemma timeBonus_antitone (t1 t2 : Q) : t1 <= t2 -> timeBonus t2 <= timeBonus t1.
Proof.
  intros Ht. unfold GamePlayer.timeBonus, sub, div.
  apply Math_max_mono, fl_mono.
  assert (fl (t1 / 30) <= fl (t2 / 30)); [| lra].
  apply fl_mono. apply Qmult_le_compat_r; [done |].
  apply Qinv_le_0_compat. lra.
Qed.

Lemma timeBonus_expired (t : Q) : 30 <= t -> timeBonus t == 0.
Proof.
  intros Ht. unfold GamePlayer.timeBonus, sub, div.
  apply Math_max_left. apply (fl_upper 0); [done |].
  assert (1 <= fl (t / 30)); [| unfold inject_Z; lra].
  apply (fl_lower 1); [done |]. apply Qle_shift_div_l; unfold inject_Z; lra.
Qed.

Lemma scoreOf_mono (a x y : Q) : x <= y -> (scoreOf a x <= scoreOf a y)%Z.
Proof.
  intros H. unfold GamePlayer.scoreOf, mul, add.
  apply Math_round_mono, fl_mono.
  assert (fl (fl (a * 80) + fl (x * 20)) <= fl (fl (a * 80) + fl (y * 20))); [| lra].
  apply fl_mono.
  assert (fl (x * 20) <= fl (y * 20)); [| lra].
  apply fl_mono. lra.
Qed.

Lemma scoreOf_bounds (a b : Q) :
  0 <= a <= 1 -> 0 <= b <= 1 -> (0 <= scoreOf a b <= 10000)%Z.
Proof.
  intros Ha Hb. unfold GamePlayer.scoreOf, mul, add.
  assert (H1 : 0 <= fl (a * 80) <= 80).
  { apply (fl_bounds 0 80); [done | done |]. unfold inject_Z. lra. }
  assert (H2 : 0 <= fl (b * 20) <= 20).
  { apply (fl_bounds 0 20); [done | done |]. unfold inject_Z. lra. }
  assert (H3 : 0 <= fl (fl (a * 80) + fl (b * 20)) <= 100).
  { apply (fl_bounds 0 100); [done | done |]. unfold inject_Z. lra. }
  apply Math_round_bounds.
  apply (fl_bounds 0 10000); [done | done |]. unfold inject_Z. lra.
Qed.

Lemma scoreOf_proper (a x y : Q) : x == y -> scoreOf a x = scoreOf a y.
Proof.
  intros H. apply Z.le_antisymm; apply scoreOf_mono; rewrite H; apply Qle_refl.
Qed.

(** C1 (amended): for a track with at least one artist, the score is
    round((avgSimilarity*80 + timeBonus*20)*100), avgSimilarity being
    the mean of the title and artist similarities and timeBonus being
    max(0, 1 - elapsed/30); once 30 seconds have elapsed the time bonus
    is 0 and the score is the one computed with 0 in its place. *)
Theorem calculateScore_formula (track : SpotifyTrack) (artist0 : SpotifyArtist)
    (rest : list SpotifyArtist) (g : GameState) :
  artists track = artist0 :: rest ->
  let titleSimilarity := calculateSimilarity (titleGuess g) (track_name track) in
  let artistSimilarity := calculateSimilarity (artistGuess g) (artist_name artist0) in
  let avgSimilarity := (titleSimilarity ⊕ artistSimilarity) ⊘ 2 in
  let bonus := Math_max 0 (1 ⊖ timer g ⊘ 30) in
  exists r,
    calculateScore track g = Some r
    /\ score r = Math_round ((avgSimilarity ⊗ 80 ⊕ bonus ⊗ 20) ⊗ 100)
    /\ (30 <= timer g ->
        bonus == 0 /\ score r = Math_round ((avgSimilarity ⊗ 80 ⊕ 0 ⊗ 20) ⊗ 100)).
Proof.
  intros Hartists ts ars avg bonus. eexists. split.
  { apply (calculateScore_unfold _ _ _ _ Hartists). }
  split; [done |]. intros Ht. cbn [score].
  pose proof (timeBonus_expired _ Ht) as H0. split; [exact H0 |].
  by apply scoreOf_proper.
Qed.

(** C2 (amended): with similarities in [0,1] and a non-negative elapsed
    time, the score is an integer between 0 and 10000. *)
Theorem calculateScore_range (track : SpotifyTrack) (artist0 : SpotifyArtist)
    (rest : list SpotifyArtist) (g : GameState) :
  (forall a b, 0 <= calculateSimilarity a b <= 1) ->
  artists track = artist0 :: rest ->
  0 <= timer g ->
  exists r, calculateScore track g = Some r /\ (0 <= score r <= 10000)%Z.
Proof.
  intros Hsim Hartists Ht. eexists. split.
  { apply (calculateScore_unfold _ _ _ _ Hartists). }
  cbn [score]. apply scoreOf_bounds.
  - by apply averageSimilarity_bounds.
  - split; [apply timeBonus_nonneg | by apply timeBonus_le_1].
Qed.

(** C3: with the guesses and the track fixed, a later submission never
    scores more than an earlier one. *)
Theorem calculateScore_antitone (track : SpotifyTrack) (artist0 : SpotifyArtist)
    (rest : list SpotifyArtist) (g1 g2 : GameState) :
  artists track = artist0 :: rest ->
  titleGuess g1 = titleGuess g2 ->
  artistGuess g1 = artistGuess g2 ->
  timer g1 <= timer g2 ->
  exists r1 r2,
    calculateScore track g1 = Some r1
    /\ calculateScore track g2 = Some r2
    /\ (score r2 <= score r1)%Z.
Proof.
  intros Hartists Htitle Hartist Ht. do 2 eexists.
  split; [apply (calculateScore_unfold _ _ _ _ Hartists) |].
  split; [apply (calculateScore_unfold _ _ _ _ Hartists) |].
  cbn [score]. rewrite Htitle, Hartist.
  by apply scoreOf_mono, timeBonus_antitone.
Qed.

(** C4: the correctness flag is true exactly when the title similarity
    and the artist similarity both exceed 0.8; the timer, and with it the
    score, has no part in it. *)
Theorem isCorrect_iff (track : SpotifyTrack) (artist0 : SpotifyArtist)
    (rest : list SpotifyArtist) (g : GameState) :
  artists track = artist0 :: rest ->
  let titleSimilarity := calculateSimilarity (titleGuess g) (track_name track) in
  let artistSimilarity := calculateSimilarity (artistGuess g) (artist_name artist0) in
  exists r,
    calculateScore track g = Some r
    /\ (isCorrect r = true <-> lit 0.8 < titleSimilarity /\ lit 0.8 < artistSimilarity)
    /\ (forall g' r',
          titleGuess g' = titleGuess g -> artistGuess g' = artistGuess g ->
          calculateScore track g' = Some r' -> isCorrect r' = isCorrect r).
Proof.
  intros Hartists ts ars. eexists. split.
  { apply (calculateScore_unfold _ _ _ _ Hartists). }
  cbn [isCorrect]. split.
  - by rewrite andb_true_iff, !gt_spec.
  - intros g' r' Htitle Hartist.
    rewrite (calculateScore_unfold _ _ _ _ Hartists), Htitle, Hartist.
    by intros [= <-].
Qed.

End ScoreCalculator.

(** ** The round *)

Section Round.

Import Number GamePlayer.

Variable calculateSimilarity : string -> string -> Q.
Variable togglePlayback : Player -> option Player.

Abbreviation calculateScore := (calculateScore calculateSimilarity).
Abbreviation handleSubmitGuess := (handleSubmitGuess calculateSimilarity).
Abbreviation handlePauseAndGuess := (handlePauseAndGuess togglePlayback).

Lemma phase_Scored (w : World) : phase w = Scored <-> is_Some (result (game w)).
Proof.
  unfold phase. destruct (result (game w)) as [r |].
  - split; [by eexists | done].
  - split; [| by intros [? ?]].
    by destruct (isGuessing (game w)), (isPlaying (player w) && hasStartedPlaying (game w)).
Qed.

Lemma phase_Guessing (w : World) :
  phase w = Guessing <-> result (game w) = None /\ isGuessing (game w) = true.
Proof.
  unfold phase. destruct (result (game w)) as [r |].
  - split; [done | by intros [? ?]].
  - destruct (isGuessing (game w)).
    + by split.
    + split; [| by intros [? ?]].
      by destruct (isPlaying (player w) && hasStartedPlaying (game w)).
Qed.

(** The timer runs in the Playing phase and in no other. *)
Lemma timerRunning_Playing (w : World) : timerRunning w = true <-> phase w = Playing.
Proof.
  unfold timerRunning, phase. destruct (result (game w)) as [r |].
  - rewrite bool_decide_eq_true_2 by (by eexists). cbn. rewrite andb_false_r. by split.
  - rewrite bool_decide_eq_false_2 by (by intros [? ?]). cbn. rewrite andb_true_r.
    destruct (isGuessing (game w)), (isPlaying (player w)), (hasStartedPlaying (game w));
      by split.
Qed.

(** A firing of the interval changes the timer and nothing else. *)
Lemma tick_timer (w : World) :
  exec tick w =
    Some {| game := {| timer := timer (game w) ⊕ lit 0.1;
                       isGuessing := isGuessing (game w);
                       titleGuess := titleGuess (game w);
                       artistGuess := artistGuess (game w);
                       result := result (game w);
                       hasStartedPlaying := hasStartedPlaying (game w) |};
            player := player w; calls := calls w |}.
Proof. reflexivity. Qed.

(** C7: in the Scored phase the replay handler sets the timer to 0, both
    guesses to the empty string and the result to absent, and calls the
    play-again callback of the orchestrator; the round is back in
    AwaitingPlayback. *)
Theorem handlePlayAgain_resets (w : World) :
  phase w = Scored ->
  exists w',
    exec handlePlayAgain w = Some w'
    /\ timer (game w') = 0
    /\ titleGuess (game w') = ""
    /\ artistGuess (game w') = ""
    /\ result (game w') = None
    /\ isGuessing (game w') = false
    /\ hasStartedPlaying (game w') = false
    /\ player w' = player w
    /\ calls w' = calls w ++ [onPlayAgain]
    /\ phase w' = AwaitingPlayback
    /\ (truthy (error (player w)) = false -> isInitialized (player w) = true ->
        offered w PlayAgain = true).
Proof.
  intros [r Hr]%phase_Scored. eexists. split; [reflexivity |]. cbn.
  repeat split; [by rewrite andb_false_r |].
  intros He Hi. unfold offered. by rewrite He, Hi, Hr.
Qed.

(** C8 (amended): in the Guessing phase the page does not offer the
    pause-and-guess control.  Its handler has no guard of its own: run in
    that phase it calls [togglePlayback] on the playback engine all the
    same, and leaves the guessing flag, the timer, the guesses, the result
    and the calls made as they were. *)
Theorem handlePauseAndGuess_while_guessing (w : World) :
  phase w = Guessing ->
  offered w PauseAndGuess = false
  /\ (forall p, togglePlayback (player w) = Some p ->
        exec handlePauseAndGuess w = Some {| game := game w; player := p; calls := calls w |})
  /\ (togglePlayback (player w) = None -> exec handlePauseAndGuess w = None).
Proof.
  intros [Hresult Hguessing]%phase_Guessing. split; [| split].
  - unfold offered. rewrite Hresult, Hguessing.
    by destruct (truthy (error (player w))), (isInitialized (player w)).
  - intros p Hp. unfold GamePlayer.handlePauseAndGuess, exec, bind, await.
    rewrite Hp. cbn. destruct w as [g pl cs]; cbn in *.
    destruct g; cbn in *. by subst.
  - intros Hp. unfold GamePlayer.handlePauseAndGuess, exec, bind, await. by rewrite Hp.
Qed.

(** C10: for a track with several artists, scoring and the history entry
    go by the first artist only: the artist similarity is taken against
    the first artist's name, the score is that of any track with the same
    name and the same first artist, and [artistName] in the entry handed
    to the history is the first artist's name. *)
Theorem first_artist_only (track : SpotifyTrack) (artist0 artist1 : SpotifyArtist)
    (rest : list SpotifyArtist) (now : Z) (w : World) :
  artists track = artist0 :: artist1 :: rest ->
  let artistSimilarity := calculateSimilarity (artistGuess (game w)) (artist_name artist0) in
  let titleSimilarity := calculateSimilarity (titleGuess (game w)) (track_name track) in
  exists r e w',
    calculateScore track (game w) = Some r
    /\ score r = scoreOf (averageSimilarity titleSimilarity artistSimilarity)
                        (timeBonus (timer (game w)))
    /\ isCorrect r = gt titleSimilarity (lit 0.8) && gt artistSimilarity (lit 0.8)
    /\ (forall track' others,
          track_name track' = track_name track -> artists track' = artist0 :: others ->
          calculateScore track' (game w) = Some r)
    /\ exec (handleSubmitGuess track now (game w)) w = Some w'
    /\ result (game w') = Some r
    /\ calls w' = calls w ++ [onGameComplete (score r); addGameResult e]
    /\ artistName e = artist_name artist0
    /\ result_score e = score r.
Proof.
  intros Hartists ars ts.
  pose proof (calculateScore_unfold calculateSimilarity _ _ _ (game w) Hartists) as Hscore.
  do 3 eexists. split; [exact Hscore |].
  split; [done |]. split; [done |]. split.
  { intros track' others Hname Hothers.
    rewrite (calculateScore_unfold calculateSimilarity _ _ _ (game w) Hothers).
    by rewrite Hname. }
  unfold GamePlayer.handleSubmitGuess, exec, bind.
  rewrite Hscore, Hartists. cbn.
  split; [reflexivity |]. split; [done |].
  split; [by rewrite <- app_assoc |]. done.
Qed.

End Round.

(** ** The orchestrator *)

Section Orchestrator.

Import Number App.

Variable SpotifyUser : Type.
Variable validateTrack : SpotifyTrack -> bool.

Abbreviation AppState := (AppState SpotifyUser).
Abbreviation validTracksOf := (validTracksOf validateTrack).
Abbreviation handlePlaylistSelect := (handlePlaylistSelect validateTrack).
Abbreviation handlePlayAgain := (handlePlayAgain validateTrack).
Abbreviation serve := (serve validateTrack).
Abbreviation session := (session validateTrack).

Implicit Types (st : AppState) (api : string -> option TracksResponse)
  (playlist : SpotifyPlaylist) (response : TracksResponse).

(** The tracks left by the two filters. *)
Lemma validTracksOf_In response (played : gset string) (t : SpotifyTrack) :
  In t (validTracksOf response played) <->
  In t (List.map track (items response)) /\ validateTrack t = true /\ (track_id t ∉ played).
Proof.
  unfold App.validTracksOf. rewrite !filter_In, negb_true_iff, bool_decide_eq_false.
  tauto.
Qed.

(** The filters only take tracks away. *)
Lemma validTracksOf_length response (played : gset string) :
  (length (validTracksOf response played) <= length (items response))%nat.
Proof.
  unfold App.validTracksOf.
  etransitivity; [apply filter_length_le |].
  etransitivity; [apply filter_length_le |].
  by rewrite length_map.
Qed.

(** A draw of [Math.random()] indexes the array. *)
Lemma randomIndex_lt (random : Q) (validTracks : list SpotifyTrack) :
  isDraw random -> validTracks <> [] ->
  (Z.of_nat (length validTracks) < 2 ^ 32)%Z ->
  (randomIndex random validTracks < length validTracks)%nat.
Proof.
  intros [Hnumber Hrange] Hne Hlen. unfold randomIndex, Math_floor.
  set (n := Z.of_nat (length validTracks)) in *.
  assert (Hn : (0 < n)%Z) by (destruct validTracks; [done | subst n; cbn; lia]).
  destruct (mul_below_length random n Hnumber Hrange) as [Hlo Hhi]; [lia |].
  assert (Hlo' : (0 <= Qfloor (random ⊗ inject_Z n))%Z).
  { rewrite <- (Qfloor_Z 0). by apply Qfloor_resp_le. }
  assert (Hhi' : (Qfloor (random ⊗ inject_Z n) < n)%Z).
  { rewrite Zlt_Qlt. eapply Qle_lt_trans; [apply Qfloor_le | done]. }
  lia.
Qed.

(** C5: when every valid track of the playlist is already in the played
    set, the handler only sets the "no more tracks" message: no track is
    selected, and the current track and the played set stay as they are. *)
Theorem handlePlaylistSelect_all_played api (random : Q) playlist st response :
  api (playlist_id playlist) = Some response ->
  (forall item, In item (items response) -> validateTrack (track item) = true ->
                track_id (track item) ∈ playedTracks st) ->
  exists us,
    handlePlaylistSelect api random playlist st = Some us
    /\ selected us = []
    /\ error (commit st us) = Some "No more unplayed tracks in this playlist!"
    /\ currentTrack (commit st us) = currentTrack st
    /\ playedTracks (commit st us) = playedTracks st.
Proof.
  intros Hresponse Hplayed. unfold App.handlePlaylistSelect. rewrite Hresponse.
  assert (Hnil : validTracksOf response (playedTracks st) = []).
  { destruct (validTracksOf response (playedTracks st)) as [| t l] eqn:E; [done |].
    assert (Ht : In t (validTracksOf response (playedTracks st))) by (rewrite E; by left).
    apply validTracksOf_In in Ht as (Hin & Hvalid & Hfresh).
    apply in_map_iff in Hin as (item & <- & Hitem).
    destruct Hfresh. by apply Hplayed. }
  cbn zeta. rewrite Hnil. cbn. by eexists.
Qed.

(** C9: when [getPlaylistTracks] rejects, the handler only sets the
    retry-prompting message; every other cell, the current track and the
    played set among them, stays as it is. *)
Theorem handlePlaylistSelect_fetch_failure api (random : Q) playlist st :
  api (playlist_id playlist) = None ->
  exists us,
    handlePlaylistSelect api random playlist st = Some us
    /\ selected us = []
    /\ commit st us =
         {| user := user st; playlists := playlists st; currentTrack := currentTrack st;
            error := Some "Failed to load tracks. Please try again.";
            playedTracks := playedTracks st |}.
Proof.
  intros Hreject. unfold App.handlePlaylistSelect. rewrite Hreject. by eexists.
Qed.

(** What one run of the handler queues when an unplayed valid track is
    there to select. *)
Lemma handlePlaylistSelect_selects api (random : Q) playlist st response :
  api (playlist_id playlist) = Some response ->
  isArray (items response) ->
  isDraw random ->
  (exists item, In item (items response) /\ validateTrack (track item) = true
                /\ (track_id (track item) ∉ playedTracks st)) ->
  exists t,
    handlePlaylistSelect api random playlist st =
      Some [setCurrentTrack (Some t);
            setPlayedTracks (fun prev => prev ∪ {[ track_id t ]});
            setError None]
    /\ In t (List.map track (items response))
    /\ validateTrack t = true
    /\ (track_id t ∉ playedTracks st).
Proof.
  intros Hresponse Harray Hrandom (item & Hitem & Hvalid & Hfresh).
  unfold App.handlePlaylistSelect. rewrite Hresponse. cbn zeta.
  set (validTracks := validTracksOf response (playedTracks st)).
  assert (Hne : validTracks <> []).
  { intros Hnil. assert (Hin : In (track item) validTracks).
    { apply validTracksOf_In. split; [by apply in_map | done]. }
    by rewrite Hnil in Hin. }
  destruct (Nat.eqb_spec (length validTracks) 0) as [Hlen | _].
  { by destruct validTracks. }
  assert (Hlt : (randomIndex random validTracks < length validTracks)%nat).
  { apply randomIndex_lt; [done | done |].
    pose proof (validTracksOf_length response (playedTracks st)) as Hle.
    unfold isArray in Harray. fold validTracks in Hle. lia. }
  apply lookup_lt_is_Some_2 in Hlt as [t Ht]. rewrite Ht.
  assert (Hin : In t validTracks).
  { apply list_elem_of_In. by eapply list_elem_of_lookup_2. }
  apply validTracksOf_In in Hin as (Hin & Htvalid & Htfresh).
  by exists t.
Qed.

(** Every run of the handler either selects nothing and leaves the played
    set alone, or selects one identifier that was not in the played set
    of the render it was called on and adds it to the played set as it is
    when the setters run. *)
Lemma handlePlaylistSelect_cases api (random : Q) playlist st :
  isDraw random ->
  (forall id response, api id = Some response -> isArray (items response)) ->
  exists us,
    handlePlaylistSelect api random playlist st = Some us
    /\ ((selected us = [] /\ forall cells : AppState, playedTracks (commit cells us) = playedTracks cells)
        \/ (exists i, selected us = [i] /\ (i ∉ playedTracks st)
                      /\ forall cells : AppState,
                           playedTracks (commit cells us) = playedTracks cells ∪ {[ i ]})).
Proof.
  intros Hrandom Hanswers.
  destruct (api (playlist_id playlist)) as [response |] eqn:Hresponse.
  - destruct (validTracksOf response (playedTracks st)) as [| t0 l] eqn:E.
    + unfold App.handlePlaylistSelect. rewrite Hresponse. cbn zeta. rewrite E. cbn.
      eexists. split; [done |]. by left.
    + assert (Ht0 : In t0 (validTracksOf response (playedTracks st))) by (rewrite E; by left).
      apply validTracksOf_In in Ht0 as (Hin & Hvalid & Hfresh).
      apply in_map_iff in Hin as (item & <- & Hitem).
      destruct (handlePlaylistSelect_selects api random playlist st response)
        as (t & Hus & _ & _ & Htfresh);
        [done | by eapply Hanswers | done | |].
      { by exists item. }
      eexists. split; [exact Hus |]. right. by exists (track_id t).
  - unfold App.handlePlaylistSelect. rewrite Hresponse.
    eexists. split; [done |]. by left.
Qed.

Lemma serve_cases (r : Request) st :
  plausible r ->
  exists us,
    serve r st = Some us
    /\ ((selected us = [] /\ forall cells : AppState, playedTracks (commit cells us) = playedTracks cells)
        \/ (exists i, selected us = [i] /\ (i ∉ playedTracks st)
                      /\ forall cells : AppState,
                           playedTracks (commit cells us) = playedTracks cells ∪ {[ i ]})).
Proof.
  intros [Hrandom Hanswers]. destruct r as [api random playlist | api random]; cbn in *.
  - by apply handlePlaylistSelect_cases.
  - unfold App.handlePlayAgain. destruct (currentTrack st) as [current |].
    + destruct (find (holds current) (playlists st)) as [currentPlaylist |].
      * by apply handlePlaylistSelect_cases.
      * exists []. split; [done |]. by left.
    + exists []. split; [done |]. by left.
Qed.

(** With no call pending, a request made and settled at once is served
    on the cells as they are. *)
Lemma session_oneByOne (r : Request) (rs : list Request) st :
  session (oneByOne (r :: rs)) [] st =
    match serve r st with
    | Some us =>
        match session (oneByOne rs) [] (commit st us) with
        | Some (ids, st') => Some (selected us ++ ids, st')
        | None => None
        end
    | None => None
    end.
Proof. reflexivity. Qed.

(** A session of requests made one after the other never selects an
    identifier twice, nor one that was played before the session. *)
Lemma session_selects_once (rs : list Request) st :
  Forall plausible rs ->
  exists ids st',
    session (oneByOne rs) [] st = Some (ids, st')
    /\ NoDup ids
    /\ (forall i, In i ids -> i ∉ playedTracks st)
    /\ playedTracks st' = playedTracks st ∪ list_to_set ids.
Proof.
  intros Hrs. revert st. induction Hrs as [| r rs Hr _ IH]; intros st.
  - exists [], st. cbn. split; [done |]. split; [constructor |].
    split; [by intros i [] |]. by rewrite (right_id_L ∅ (∪)).
  - destruct (serve_cases r st Hr) as (us & Hus & Hcases).
    destruct (IH (commit st us)) as (ids & st' & Hsession & Hnodup & Hfresh & Hplayed).
    exists (selected us ++ ids), st'. rewrite session_oneByOne, Hus, Hsession.
    split; [done |].
    destruct Hcases as [[-> Hsame] | (i & -> & Hi & Hgrown)]; cbn.
    + rewrite Hsame in Hfresh, Hplayed. done.
    + rewrite Hgrown in Hfresh, Hplayed. split; [| split].
      * apply NoDup_cons. split; [| done].
        intros Hin%list_elem_of_In. apply Hfresh in Hin.
        apply Hin, elem_of_union_r. by apply elem_of_singleton.
      * intros j [<- | Hj]; [done |].
        intros Hplayed_j. apply (Hfresh j Hj). by apply elem_of_union_l.
      * rewrite Hplayed. by rewrite (assoc_L (∪)).
Qed.


End Orchestrator.

(** ** The sample Similarity Scorer *)

Section SimilarityFacts.

Import Similarity.

Lemma distance_le (a b : list ascii) :
  (distance a b <= Nat.max (length a) (length b))%nat.
Proof.
  revert b. induction a as [| x a IHa]; intros b; [cbn; lia |].
  induction b as [| y b IHb]; [cbn; lia |].
  cbn [distance length]. destruct (Ascii.eqb x y).
  - specialize (IHa b). lia.
  - specialize (IHa b). lia.
Qed.

Lemma calculateSimilarity_range (a b : string) : 0 <= calculateSimilarity a b <= 1.
Proof.
  unfold calculateSimilarity.
  pose proof (distance_le (normalize a) (normalize b)) as Hd.
  destruct (Nat.max (length (normalize a)) (length (normalize b))) as [| n]; [lra |].
  set (d := distance (normalize a) (normalize b)) in *.
  assert (Hn : 0 < inject_Z (Z.of_nat (S n))).
  { change 0 with (inject_Z 0). rewrite <- Zlt_Qlt. lia. }
  assert (H0 : 0 <= inject_Z (Z.of_nat d) / inject_Z (Z.of_nat (S n))).
  { apply Qle_shift_div_l; [done |]. rewrite Qmult_0_l.
    change 0 with (inject_Z 0). rewrite <- Zle_Qle. lia. }
  assert (H1 : inject_Z (Z.of_nat d) / inject_Z (Z.of_nat (S n)) <= 1).
  { apply Qle_shift_div_r; [done |]. rewrite Qmult_1_l, <- Zle_Qle. lia. }
  unfold Number.sub, Number.div.
  assert (H2 : 0 <= Number.fl (inject_Z (Z.of_nat d) / inject_Z (Z.of_nat (S n))) <= 1).
  { by apply (fl_bounds 0 1). }
  apply (fl_bounds 0 1); [done | done |].
  change (inject_Z 0) with 0. change (inject_Z 1) with 1. lra.
Qed.

End SimilarityFacts.

(** ** The theorems at sample inputs *)

Section Samples.

Import Number GamePlayer App Sample.

Abbreviation similarity := Similarity.calculateSimilarity.

Lemma calculateScore_formula_witness :
  artists getBack = [beatles; preston]
  /\ 30 <= timer (guessed 45)
  /\ exists r,
       calculateScore similarity getBack (guessed 45) = Some r
       /\ score r = 8000%Z.
Proof.
  split; [reflexivity |].
  split; [unfold Qle; cbn; lia |].
  destruct (calculateScore_formula similarity
              getBack beatles [preston] (guessed 45) eq_refl)
    as (r & Hr & Hscore & _).
  exists r. split; [exact Hr |]. rewrite Hscore. vm_compute. reflexivity.
Defined.

(** Both guesses right at 0 seconds: the component scores 10000, the
    formula of the specification gives 100. *)
Lemma calculateScore_formula_counterexample :
  exists r,
    calculateScore similarity getBack (guessed 0) = Some r
    /\ score r = 10000%Z
    /\ Spec.finalScore
         (averageSimilarity (similarity "get back" "Get Back")
                            (similarity "the beatles" "The Beatles"))
         (timeBonus 0) = 100%Z
    /\ score r <> Spec.finalScore
         (averageSimilarity (similarity "get back" "Get Back")
                            (similarity "the beatles" "The Beatles"))
         (timeBonus 0).
Proof. eexists. split; [reflexivity |]. by vm_compute. Qed.

Lemma calculateScore_range_witness :
  (forall a b, 0 <= similarity a b <= 1)
  /\ artists getBack = [beatles; preston]
  /\ 0 <= timer (titleOnly 15)
  /\ exists r,
       calculateScore similarity getBack (titleOnly 15) = Some r
       /\ (0 <= score r <= 10000)%Z.
Proof.
  split; [exact calculateSimilarity_range |].
  split; [reflexivity |]. split; [unfold Qle; cbn; lia |].
  apply (calculateScore_range similarity getBack beatles [preston]);
    [exact calculateSimilarity_range | reflexivity | unfold Qle; cbn; lia].
Defined.

(** The title right, no artist typed, 15 seconds: the score is 5000. *)
Lemma calculateScore_range_counterexample :
  0 <= timer (titleOnly 15)
  /\ exists r,
       calculateScore similarity getBack (titleOnly 15) = Some r
       /\ score r = 5000%Z
       /\ ~ (0 <= score r <= 100)%Z.
Proof.
  split; [unfold Qle; cbn; lia |].
  eexists. split; [reflexivity |]. vm_compute. split; [reflexivity |]. by intros [_ H].
Qed.

Lemma calculateScore_antitone_witness :
  artists getBack = [beatles; preston]
  /\ timer (guessed 4.5) <= timer (guessed 12)
  /\ exists r1 r2,
       calculateScore similarity getBack (guessed 4.5) = Some r1
       /\ calculateScore similarity getBack (guessed 12) = Some r2
       /\ (score r2 <= score r1)%Z.
Proof.
  split; [reflexivity |].
  split; [unfold Qle; cbn; lia |].
  apply (calculateScore_antitone similarity getBack beatles [preston]);
    [reflexivity | reflexivity | reflexivity | unfold Qle; cbn; lia].
Defined.

Lemma isCorrect_iff_witness :
  artists getBack = [beatles; preston]
  /\ exists r,
       calculateScore similarity getBack (titleOnly 15) = Some r
       /\ isCorrect r = false.
Proof.
  split; [reflexivity |].
  destruct (isCorrect_iff similarity getBack beatles [preston] (titleOnly 15) eq_refl)
    as (r & Hr & Hiff & _).
  exists r. split; [exact Hr |].
  destruct (isCorrect r); [| reflexivity].
  destruct Hiff as [Hiff _]. destruct (Hiff eq_refl) as [_ Hartist].
  vm_compute in Hartist. discriminate Hartist.
Defined.

Lemma handlePlayAgain_resets_witness :
  phase scored = Scored
  /\ exists w',
       exec GamePlayer.handlePlayAgain scored = Some w'
       /\ timer (game w') = 0
       /\ result (game w') = None
       /\ calls w' = [onGameComplete 9700; onPlayAgain].
Proof.
  split; [reflexivity |].
  destruct (handlePlayAgain_resets scored eq_refl)
    as (w' & Hw' & Htimer & _ & _ & Hresult & _ & _ & _ & Hcalls & _).
  exists w'. split; [exact Hw' |]. split; [exact Htimer |].
  split; [exact Hresult | exact Hcalls].
Defined.

Lemma handlePauseAndGuess_while_guessing_witness :
  phase guessing = Guessing
  /\ offered guessing PauseAndGuess = false
  /\ isGuessing (game guessing) = true.
Proof.
  split; [reflexivity |].
  destruct (handlePauseAndGuess_while_guessing PlaybackEngine.togglePlayback guessing eq_refl)
    as (Hoffered & _).
  split; [exact Hoffered | reflexivity].
Defined.

Lemma handlePauseAndGuess_while_guessing_counterexample :
  phase guessing = Guessing
  /\ exists w',
       exec (handlePauseAndGuess PlaybackEngine.togglePlayback) guessing = Some w'
       /\ isPlaying (player guessing) = false
       /\ isPlaying (player w') = true
       /\ w' <> guessing.
Proof.
  split; [reflexivity |]. eexists. split; [reflexivity |].
  split; [reflexivity |]. split; [reflexivity |].
  intros H. by apply (f_equal (fun w => isPlaying (player w))) in H.
Qed.

Lemma first_artist_only_witness :
  artists getBack = beatles :: preston :: []
  /\ exists r e w',
       calculateScore similarity getBack (game guessing) = Some r
       /\ exec (handleSubmitGuess similarity getBack 1730505600000 (game guessing))
               guessing = Some w'
       /\ calls w' = [onGameComplete (score r); addGameResult e]
       /\ artistName e = "The Beatles".
Proof.
  split; [reflexivity |].
  destruct (first_artist_only similarity getBack beatles preston []
              1730505600000 guessing eq_refl)
    as (r & e & w' & Hr & _ & _ & _ & Hw' & _ & Hcalls & Hname & _).
  exists r, e, w'. split; [exact Hr |]. split; [exact Hw' |].
  split; [exact Hcalls | exact Hname].
Defined.

Lemma handlePlaylistSelect_all_played_witness :
  api (playlist_id playlist) =
    Some {| items := [ {| track := getBack |}; {| track := acrossTheUniverse |} ] |}
  /\ (forall item,
        In item [ {| track := getBack |}; {| track := acrossTheUniverse |} ] ->
        hasId (track item) = true -> track_id (track item) ∈ playedTracks allPlayed)
  /\ exists us,
       handlePlaylistSelect hasId api 0.75 playlist allPlayed = Some us
       /\ currentTrack (commit allPlayed us) = Some getBack.
Proof.
  assert (Hplayed : forall item,
             In item [ {| track := getBack |}; {| track := acrossTheUniverse |} ] ->
             hasId (track item) = true -> track_id (track item) ∈ playedTracks allPlayed).
  { intros item [<- | [<- | []]] _; unfold allPlayed; cbn [playedTracks track track_id].
    - apply elem_of_union_l. by apply elem_of_singleton.
    - apply elem_of_union_r. by apply elem_of_singleton. }
  split; [reflexivity |]. split; [exact Hplayed |].
  destruct (handlePlaylistSelect_all_played unit hasId api 0.75 playlist allPlayed _
              eq_refl Hplayed) as (us & Hus & _ & _ & Hcurrent & _).
  exists us. split; [exact Hus | exact Hcurrent].
Defined.

Lemma handlePlaylistSelect_fetch_failure_witness :
  offline (playlist_id playlist) = None
  /\ exists us,
       handlePlaylistSelect hasId offline 0.75 playlist allPlayed = Some us
       /\ commit allPlayed us =
            {| user := None; playlists := [playlist]; currentTrack := Some getBack;
               App.error := Some "Failed to load tracks. Please try again.";
               playedTracks := playedTracks allPlayed |}.
Proof.
  split; [reflexivity |].
  destruct (handlePlaylistSelect_fetch_failure unit hasId offline 0.75 playlist allPlayed eq_refl)
    as (us & Hus & _ & Hst).
  exists us. split; [exact Hus | exact Hst].
Defined.



End Samples.

(** * Further properties *)

(** ** More on the Score Calculator *)

Section ScoreFacts.

Import Number GamePlayer.

Variable calculateSimilarity : string -> string -> Q.

Abbreviation calculateScore := (calculateScore calculateSimilarity).

Lemma averageSimilarity_mono (a1 a2 b1 b2 : Q) :
  a1 <= a2 -> b1 <= b2 -> averageSimilarity a1 b1 <= averageSimilarity a2 b2.
Proof.
  intros Ha Hb. unfold averageSimilarity, div, add. apply fl_mono.
  assert (H : fl (a1 + b1) <= fl (a2 + b2)) by (apply fl_mono; lra).
  apply Qmult_le_compat_r; [exact H | by vm_compute].
Qed.

Lemma scoreOf_mono_average (a1 a2 b : Q) : a1 <= a2 -> (scoreOf a1 b <= scoreOf a2 b)%Z.
Proof.
  intros H. unfold scoreOf, mul, add.
  apply Math_round_mono, fl_mono.
  assert (fl (fl (a1 * 80) + fl (b * 20)) <= fl (fl (a2 * 80) + fl (b * 20))); [| lra].
  apply fl_mono.
  assert (fl (a1 * 80) <= fl (a2 * 80)); [| lra].
  apply fl_mono. lra.
Qed.

(** X1: with the timer and the track fixed, guesses that are at least as
    similar to the title and to the first artist never score less. *)
Theorem calculateScore_monotone (track : SpotifyTrack) (artist0 : SpotifyArtist)
    (rest : list SpotifyArtist) (g1 g2 : GameState) :
  artists track = artist0 :: rest ->
  timer g1 = timer g2 ->
  calculateSimilarity (titleGuess g1) (track_name track)
    <= calculateSimilarity (titleGuess g2) (track_name track) ->
  calculateSimilarity (artistGuess g1) (artist_name artist0)
    <= calculateSimilarity (artistGuess g2) (artist_name artist0) ->
  exists r1 r2,
    calculateScore track g1 = Some r1
    /\ calculateScore track g2 = Some r2
    /\ (score r1 <= score r2)%Z.
Proof.
  intros Hartists Htimer Htitle Hartist. do 2 eexists.
  split; [apply (calculateScore_unfold _ _ _ _ _ Hartists) |].
  split; [apply (calculateScore_unfold _ _ _ _ _ Hartists) |].
  cbn [score]. rewrite Htimer.
  by apply scoreOf_mono_average, averageSimilarity_mono.
Qed.

(** The least score of a guess flagged correct. *)
Lemma scoreOf_correct (a b t : Q) :
  lit 0.8 < a -> lit 0.8 < b -> (6400 <= scoreOf (averageSimilarity a b) (timeBonus t))%Z.
Proof.
  intros Ha Hb.
  assert (Havg : lit 0.8 <= averageSimilarity a b).
  { assert (E : averageSimilarity (lit 0.8) (lit 0.8) == lit 0.8) by (by vm_compute).
    rewrite <- E. apply averageSimilarity_mono; by apply Qlt_le_weak. }
  assert (H08 : 8 # 10 <= lit 0.8) by (by vm_compute).
  pose proof (timeBonus_nonneg t) as Hbonus.
  set (avg := averageSimilarity a b) in *. set (bonus := timeBonus t) in *.
  unfold scoreOf, mul, add.
  assert (H1 : 64 <= fl (avg * 80)).
  { apply (fl_lower 64 (avg * 80)); [lia |]. unfold inject_Z. lra. }
  assert (H2 : 0 <= fl (bonus * 20)).
  { apply (fl_lower 0); [lia |]. unfold inject_Z. lra. }
  assert (H3 : 64 <= fl (fl (avg * 80) + fl (bonus * 20))).
  { apply (fl_lower 64); [lia |]. unfold inject_Z. lra. }
  rewrite <- (Math_round_int 6400). apply Math_round_mono.
  apply (fl_lower 6400); [lia |]. unfold inject_Z. lra.
Qed.

(** The greatest score of a guess not flagged correct. *)
Lemma scoreOf_incorrect (a b t : Q) :
  a <= 1 -> b <= 1 -> 0 <= t -> a <= lit 0.8 \/ b <= lit 0.8 ->
  (scoreOf (averageSimilarity a b) (timeBonus t) <= 9200)%Z.
Proof.
  intros Ha Hb Ht Hor.
  set (top := fl (fl (lit 0.8 + 1) / 2)).
  assert (Havg : averageSimilarity a b <= top).
  { unfold averageSimilarity, div, add. apply fl_mono.
    assert (H : fl (a + b) <= fl (lit 0.8 + 1)) by (apply fl_mono; lra).
    apply Qmult_le_compat_r; [exact H | by vm_compute]. }
  pose proof (timeBonus_le_1 t Ht) as Hbonus.
  set (avg := averageSimilarity a b) in *. set (bonus := timeBonus t) in *.
  unfold scoreOf, mul, add.
  assert (H1 : fl (avg * 80) <= 72).
  { assert (E : fl (top * 80) == 72) by (by vm_compute).
    rewrite <- E. apply fl_mono. lra. }
  assert (H2 : fl (bonus * 20) <= 20).
  { apply (fl_upper 20); [lia |]. unfold inject_Z. lra. }
  assert (H3 : fl (fl (avg * 80) + fl (bonus * 20)) <= 92).
  { apply (fl_upper 92); [lia |]. unfold inject_Z. lra. }
  rewrite <- (Math_round_int 9200). apply Math_round_mono.
  apply (fl_upper 9200); [lia |]. unfold inject_Z. lra.
Qed.

(** X2: the flag and the score agree.  A guess flagged correct scores at
    least 6400; with similarities of at most 1 and a timer that is not
    negative, a guess not flagged correct scores at most 9200. *)
Theorem isCorrect_score (track : SpotifyTrack) (artist0 : SpotifyArtist)
    (rest : list SpotifyArtist) (g : GameState) :
  artists track = artist0 :: rest ->
  exists r, calculateScore track g = Some r
    /\ (isCorrect r = true -> (6400 <= score r)%Z)
    /\ ((forall a b, calculateSimilarity a b <= 1) -> 0 <= timer g ->
        isCorrect r = false -> (score r <= 9200)%Z).
Proof.
  intros Hartists. eexists.
  split; [apply (calculateScore_unfold _ _ _ _ _ Hartists) |].
  cbn [score isCorrect]. split.
  - intros [H1 H2]%andb_true_iff. apply gt_spec in H1, H2.
    by apply scoreOf_correct.
  - intros Hsim Ht H. apply scoreOf_incorrect; [apply Hsim | apply Hsim | done |].
    apply andb_false_iff in H as [H | H]; [left | right];
      apply Qnot_lt_le; intros Hlt; apply gt_spec in Hlt; congruence.
Qed.

End ScoreFacts.

(** ** The timer *)

Section TimerFacts.

Import Number GamePlayer Round.

Lemma tenth_pos : 0 < lit 0.1.
Proof. by vm_compute. Qed.

Lemma tenth_number : fl (lit 0.1) == lit 0.1.
Proof. apply fl_idempotent. Qed.

(** Adding a tenth to a binary64 number gives a binary64 number that is
    not smaller, and not smaller than the tenth when the number is not
    negative. *)
Lemma add_tenth (t : Q) :
  fl t == t ->
  fl (t ⊕ lit 0.1) == t ⊕ lit 0.1
  /\ t <= t ⊕ lit 0.1
  /\ (0 <= t -> lit 0.1 <= t ⊕ lit 0.1).
Proof.
  intros Ht. pose proof tenth_pos as Hpos. unfold add. split; [apply fl_idempotent |]. split.
  - apply Qle_trans with (fl t).
    + apply Qle_lteq. right. by symmetry.
    + apply fl_mono. lra.
  - intros H0. apply Qle_trans with (fl (lit 0.1)).
    + apply Qle_lteq. right. symmetry. apply tenth_number.
    + apply fl_mono. lra.
Qed.

(** X3: a firing of the interval never lowers the timer.  From a timer
    that is a non-negative binary64 number it leaves a positive binary64
    number, and it changes no other cell, nor the engine, nor the calls. *)
Theorem tick_advances (w : World) :
  0 <= timer (game w) ->
  fl (timer (game w)) == timer (game w) ->
  exists w',
    exec tick w = Some w'
    /\ timer (game w) <= timer (game w')
    /\ 0 < timer (game w')
    /\ fl (timer (game w')) == timer (game w')
    /\ isGuessing (game w') = isGuessing (game w)
    /\ titleGuess (game w') = titleGuess (game w)
    /\ artistGuess (game w') = artistGuess (game w)
    /\ result (game w') = result (game w)
    /\ hasStartedPlaying (game w') = hasStartedPlaying (game w)
    /\ player w' = player w
    /\ calls w' = calls w.
Proof.
  intros H0 Ht. eexists. split; [apply tick_timer |]. cbn.
  destruct (add_tenth _ Ht) as (H1 & H2 & H3).
  pose proof tenth_pos as Hpos. specialize (H3 H0).
  repeat split; [done | lra | done].
Qed.

Lemma ticked_succ (n : nat) (t : Q) : ticked (S n) t = ticked n t ⊕ lit 0.1.
Proof. reflexivity. Qed.

Lemma ticked_add (n m : nat) (t : Q) : ticked (n + m) t = ticked n (ticked m t).
Proof. unfold ticked. apply Nat.iter_add. Qed.

Lemma ticked_number (n : nat) (t : Q) : fl t == t -> fl (ticked n t) == ticked n t.
Proof.
  intros Ht. induction n as [| n IH]; [done |].
  rewrite ticked_succ. by apply add_tenth.
Qed.

Lemma ticked_le (n : nat) (t : Q) : fl t == t -> t <= ticked n t.
Proof.
  intros Ht. induction n as [| n IH]; [apply Qle_refl |].
  rewrite ticked_succ. eapply Qle_trans; [exact IH |].
  destruct (add_tenth (ticked n t) (ticked_number n t Ht)) as (_ & H & _). exact H.
Qed.

Lemma ticked_mono (n m : nat) (t : Q) :
  fl t == t -> (n <= m)%nat -> ticked n t <= ticked m t.
Proof.
  intros Ht Hnm. replace m with ((m - n) + n)%nat by lia.
  rewrite ticked_add. by apply ticked_le, ticked_number.
Qed.

(** X4: counted in firings of the interval from the start of a round, the
    time bonus lasts 299 firings: it is positive after fewer than 300 of
    them and zero from the 300th on. *)
Theorem bonus_used_up (n : nat) :
  (0 < timeBonus (ticked n 0) <-> (n < bonusTicks)%nat)
  /\ (timeBonus (ticked n 0) == 0 <-> (bonusTicks <= n)%nat).
Proof.
  assert (Hzero : fl 0 == 0) by (by vm_compute).
  assert (Hlast : 0 < timeBonus (ticked 299 0)) by (by vm_compute).
  assert (Hfirst : 30 <= ticked 300 0) by (by vm_compute).
  assert (Hbefore : (n < bonusTicks)%nat -> 0 < timeBonus (ticked n 0)).
  { intros Hn. eapply Qlt_le_trans; [exact Hlast |].
    apply timeBonus_antitone, ticked_mono; [done |]. unfold bonusTicks in Hn. lia. }
  assert (Hafter : (bonusTicks <= n)%nat -> timeBonus (ticked n 0) == 0).
  { intros Hn. apply timeBonus_expired. eapply Qle_trans; [exact Hfirst |].
    by apply ticked_mono. }
  split; split; [| done | | done].
  - intros Hpos. destruct (Nat.lt_ge_cases n bonusTicks) as [H | H]; [done |].
    apply Hafter in H. lra.
  - intros Hnil. destruct (Nat.lt_ge_cases n bonusTicks) as [H | H]; [| done].
    apply Hbefore in H. lra.
Qed.

End TimerFacts.

(** ** The round *)

Section RoundFacts.

Import Number GamePlayer Round.

Variable calculateSimilarity : string -> string -> Q.
Variable togglePlayback : Player -> option Player.

Abbreviation calculateScore := (calculateScore calculateSimilarity).
Abbreviation handleSubmitGuess := (handleSubmitGuess calculateSimilarity).
Abbreviation handlePauseAndGuess := (handlePauseAndGuess togglePlayback).
Abbreviation step := (step calculateSimilarity togglePlayback).
Abbreviation run := (run calculateSimilarity togglePlayback).



(** X7: what a submitted guess leaves behind.  The result is the only
    cell written; the round is in Scored and the timer effect's condition
    is false; the entry handed to the history carries the track's
    identifier and name, the timer as it was rendered, the value of
    [Date.now()], and the address of the first album image, or the empty
    string when the album has none. *)
Theorem handleSubmitGuess_records (track : SpotifyTrack) (artist0 : SpotifyArtist)
    (rest : list SpotifyArtist) (now : Z) (g : GameState) (w : World) :
  artists track = artist0 :: rest ->
  exists r e w',
    calculateScore track g = Some r
    /\ exec (handleSubmitGuess track now g) w = Some w'
    /\ game w' = {| timer := timer (game w); isGuessing := isGuessing (game w);
                    titleGuess := titleGuess (game w); artistGuess := artistGuess (game w);
                    result := Some r; hasStartedPlaying := hasStartedPlaying (game w) |}
    /\ player w' = player w
    /\ phase w' = Scored
    /\ timerRunning w' = false
    /\ calls w' = calls w ++ [onGameComplete (score r); addGameResult e]
    /\ trackId e = track_id track
    /\ trackName e = track_name track
    /\ time e = timer g
    /\ timestamp e = now
    /\ (images (album track) = [] -> albumImage e = "")
    /\ (forall image0 others, images (album track) = image0 :: others ->
          albumImage e = url image0).
Proof.
  intros Hartists.
  pose proof (calculateScore_unfold calculateSimilarity _ _ _ g Hartists) as Hscore.
  do 3 eexists. split; [exact Hscore |].
  unfold GamePlayer.handleSubmitGuess, exec, bind. rewrite Hscore, Hartists. cbn.
  split; [reflexivity |]. cbn.
  split; [done |]. split; [done |]. split; [done |].
  split; [unfold timerRunning; cbn; by rewrite andb_false_r |].
  split; [by rewrite <- app_assoc |].
  split; [done |]. split; [done |]. split; [done |]. split; [done |].
  unfold albumImageOf. split.
  - by intros ->.
  - by intros image0 others ->.
Qed.

(** X8: in a round whose engine has no error and is initialised, the page
    offers the pause-and-guess button exactly before a guess is open, the
    two inputs and the submit button exactly in Guessing, and the
    play-again button exactly in Scored; with an error or before
    initialisation it offers no control at all. *)
Theorem controls_by_phase (w : World) :
  (truthy (error (player w)) = false -> isInitialized (player w) = true ->
     (offered w PauseAndGuess = true <-> phase w = AwaitingPlayback \/ phase w = Playing)
     /\ (offered w TitleInput = true <-> phase w = Guessing)
     /\ (offered w ArtistInput = true <-> phase w = Guessing)
     /\ (offered w SubmitGuess = true <-> phase w = Guessing)
     /\ (offered w PlayAgain = true <-> phase w = Scored))
  /\ (truthy (error (player w)) = true \/ isInitialized (player w) = false ->
      forall c, offered w c = false).
Proof.
  split.
  - intros He Hi. unfold offered, phase. rewrite He, Hi. cbn.
    destruct (result (game w)), (isGuessing (game w)),
      (isPlaying (player w) && hasStartedPlaying (game w)); intuition congruence.
  - intros H c. unfold offered.
    destruct H as [-> | ->]; [done |]. by destruct (truthy (error (player w))).
Qed.


(** Reading a log on from where a first part of it ends. *)
Lemma audit_app (cs cs' : list Call) (a b : option Z) :
  audit cs a = Some b -> audit (cs ++ cs') a = audit cs' b.
Proof.
  remember (length cs) as n eqn:Hn. revert cs a Hn.
  induction n as [n IH] using lt_wf_ind. intros cs a Hn.
  destruct cs as [| c cs]; cbn; [by intros [= ->] |].
  destruct c as [s | | e]; [| | done].
  - destruct a as [a |]; [done |].
    destruct cs as [| [s' | | e] cs]; cbn; try done.
    destruct (result_score e =? s)%Z; [| done].
    apply (IH (length cs)); [cbn in Hn; lia | done].
  - destruct a as [a |]; [| done].
    apply (IH (length cs)); [cbn in Hn; lia | done].
Qed.

Abbreviation consistent w :=
  (0 <= timer (game w)
   /\ fl (timer (game w)) == timer (game w)
   /\ (isGuessing (game w) = false ->
       titleGuess (game w) = "" /\ artistGuess (game w) = "" /\ result (game w) = None)
   /\ audit (calls w) None = Some (score <$> result (game w))).

Lemma mounted_consistent (p : Player) : consistent (world (mounted p)).
Proof. cbn. split; [done |]. split; [by vm_compute | done]. Qed.

Lemma step_consistent (c c' : Component) (e : Event) :
  consistent (world c) -> step c e = Some c' -> consistent (world c').
Proof.
  destruct c as [[[t ig tg ag r h] pl cs] n]. cbn.
  intros (H0 & Ht & Hform & Hlog). unfold Round.step, offered.
  destruct e as [| | p | | | v | v | track now |]; cbn.
  - intros [= <-]. cbn. destruct (add_tenth t Ht) as (H1 & H2 & _).
    split; [lra |]. done.
  - by intros [= <-].
  - by intros [= <-].
  - destruct n as [| n]; [done |].
    unfold GamePlayer.handlePauseAndGuess, exec, bind, await. cbn.
    destruct (togglePlayback pl); cbn; [| done]. by intros [= <-].
  - destruct (truthy (error pl)), (isInitialized pl), r as [r |], ig; cbn; try done.
    by intros [= <-].
  - destruct (truthy (error pl)), (isInitialized pl), r as [r |], ig; cbn; try done.
    by intros [= <-].
  - destruct (truthy (error pl)), (isInitialized pl), r as [r |], ig; cbn; try done.
    by intros [= <-].
  - destruct (truthy (error pl)), (isInitialized pl), r as [r |], ig; cbn; try done.
    unfold GamePlayer.handleSubmitGuess, GamePlayer.calculateScore, exec, bind. cbn.
    destruct (artists track) as [| artist0 rest]; cbn; [done |].
    intros [= <-]. cbn. split; [done |]. split; [done |]. split; [done |].
    rewrite <- app_assoc. rewrite (audit_app _ _ _ _ Hlog). cbn.
    by rewrite Z.eqb_refl.
  - destruct (truthy (error pl)), (isInitialized pl), r as [r |], ig; cbn; try done.
    all: intros [= <-]; cbn; split; [done |]; split; [by vm_compute |]; split; [done |].
    all: by rewrite (audit_app _ _ _ _ Hlog).
Qed.

Lemma run_consistent (es : list Event) (c c' : Component) :
  consistent (world c) -> run es c = Some c' -> consistent (world c').
Proof.
  revert c. induction es as [| e es IH]; intros c Hc; cbn.
  - by intros [= <-].
  - destruct (step c e) as [c1 |] eqn:E; [| done].
    apply IH. by eapply step_consistent.
Qed.



End RoundFacts.

(** ** The interval of the timer effect *)

Section IntervalFacts.

Import Interval.

Abbreviation tracked t := (forall handle, handle ∈ live t -> intervalRef t = Some handle).

Lemma clearRef_tracked (t : Timers) : tracked t -> live (clearRef t) = ∅.
Proof.
  intros Ht. apply elem_of_equiv_empty_L. intros handle. unfold clearRef.
  destruct (intervalRef t) as [current |] eqn:E; cbn.
  - intros [Hin Hnot]%elem_of_difference. apply Hnot, elem_of_singleton.
    specialize (Ht handle Hin). congruence.
  - intros Hin. by specialize (Ht handle Hin).
Qed.

Lemma clearRef_empty (t : Timers) : live t = ∅ -> live (clearRef t) = ∅.
Proof.
  intros Ht. apply clearRef_tracked. intros handle. rewrite Ht. by intros ?%elem_of_empty.
Qed.

Lemma clearRef_next (t : Timers) : next (clearRef t) = next t.
Proof. unfold clearRef. by destruct (intervalRef t). Qed.

Lemma empty_tracked (t : Timers) : live t = ∅ -> tracked t.
Proof. intros Ht handle. rewrite Ht. by intros ?%elem_of_empty. Qed.

Lemma timerEffect_empty (running : bool) (t : Timers) :
  live t = ∅ ->
  live (timerEffect running t) = (if running then {[ next t ]} else ∅)
  /\ tracked (timerEffect running t).
Proof.
  intros Ht. unfold timerEffect. destruct running; cbn.
  - rewrite Ht, (left_id_L ∅ (∪)). split; [done |].
    by intros handle ->%elem_of_singleton.
  - split; [by apply clearRef_empty |]. by apply empty_tracked, clearRef_empty.
Qed.

Lemma update_tracked (playbackDeps timerDeps running : bool) (t : Timers) :
  tracked t -> tracked (commit t (Update playbackDeps timerDeps running)).
Proof.
  intros Ht. cbn. destruct timerDeps.
  - apply timerEffect_empty, clearRef_tracked.
    destruct playbackDeps; [| done]. by apply empty_tracked, clearRef_tracked.
  - destruct playbackDeps; [| done]. by apply empty_tracked, clearRef_tracked.
Qed.

Lemma commits_tracked (cs : list Commit) (mounted : bool) (t : Timers) :
  lifecycle mounted cs = true ->
  (mounted = false -> live t = ∅) -> tracked t ->
  tracked (commits cs t).
Proof.
  revert mounted t. induction cs as [| c cs IH]; intros mounted t Hcs Hdown Ht; [done |].
  cbn. destruct c as [running | playbackDeps timerDeps running |]; cbn in Hcs.
  - apply andb_true_iff in Hcs as [Hm Hcs]. apply negb_true_iff in Hm.
    apply (IH true); [done | done |]. by apply timerEffect_empty, Hdown.
  - apply andb_true_iff in Hcs as [Hm Hcs].
    apply (IH true); [done | done |].
    by apply update_tracked.
  - apply andb_true_iff in Hcs as [Hm Hcs].
    assert (H : live (clearRef (clearRef t)) = ∅) by (by apply clearRef_empty, clearRef_tracked).
    apply (IH false); [done | done |]. by apply empty_tracked.
Qed.

Lemma fresh_tracked (cs : list Commit) :
  lifecycle false cs = true -> tracked (commits cs fresh).
Proof. intros Hcs. by apply (commits_tracked cs false). Qed.

(** X12: a component never has two intervals running.  After any
    commits in the order React makes them, an interval of the component
    that is still live is the one [intervalRef] holds; an update in which
    the dependencies of the timer effect changed leaves exactly one live
    interval when the condition of the effect holds and none when it does
    not; and an unmount leaves none. *)
Theorem one_interval (cs : list Commit) :
  lifecycle false cs = true ->
  let t := commits cs fresh in
  (forall handle, handle ∈ live t -> intervalRef t = Some handle)
  /\ (forall playbackDeps running,
        live (commit t (Update playbackDeps true running))
        = if running then {[ next t ]} else ∅)
  /\ live (commit t Unmount) = ∅.
Proof.
  intros Hcs t. pose proof (fresh_tracked cs Hcs) as Ht. fold t in Ht.
  split; [done |]. split.
  - intros playbackDeps running. cbn.
    assert (H : live (clearRef (if playbackDeps then clearRef t else t)) = ∅).
    { apply clearRef_tracked. destruct playbackDeps; [| done].
      by apply empty_tracked, clearRef_tracked. }
    destruct (timerEffect_empty running _ H) as [-> _].
    destruct running; [| done]. rewrite clearRef_next. destruct playbackDeps; [| done].
    by rewrite clearRef_next.
  - cbn. by apply clearRef_empty, clearRef_tracked.
Qed.

(** X13: when only the dependencies of the playback effect change (the
    track or [isInitialized]), its clean-up clears the interval and the
    timer effect does not run again: no interval is live after the
    update, whether or not the condition of the timer effect holds. *)
Theorem playback_update_stops_timer (cs : list Commit) (running : bool) :
  lifecycle false cs = true ->
  live (commit (commits cs fresh) (Update true false running)) = ∅.
Proof.
  intros Hcs. cbn. by apply clearRef_tracked, fresh_tracked.
Qed.

End IntervalFacts.

(** ** The orchestrator over a session *)

Section SessionFacts.

Import Number App Session.

Variable SpotifyUser : Type.
Variable validateTrack : SpotifyTrack -> bool.

Abbreviation AppState := (AppState SpotifyUser).
Abbreviation Pending := (Pending SpotifyUser).
Abbreviation validTracksOf := (validTracksOf validateTrack).
Abbreviation handlePlaylistSelect := (handlePlaylistSelect validateTrack).
Abbreviation handlePlayAgain := (handlePlayAgain validateTrack).
Abbreviation serve := (serve validateTrack).
Abbreviation session := (session validateTrack).
Abbreviation unplayed := (unplayed validateTrack).

Implicit Types (st : AppState) (api : string -> option TracksResponse)
  (playlist : SpotifyPlaylist) (response : TracksResponse).

(** The setter calls a run of a handler can queue. *)
Lemma handlePlaylistSelect_queue api (random : Q) playlist st (us : list Update) :
  handlePlaylistSelect api random playlist st = Some us ->
  (exists message, us = [setError (Some message)])
  \/ exists t,
       us = [setCurrentTrack (Some t);
             setPlayedTracks (fun prev => prev ∪ {[ track_id t ]});
             setError None]
       /\ validateTrack t = true
       /\ (track_id t ∉ playedTracks st).
Proof.
  unfold App.handlePlaylistSelect.
  destruct (api (playlist_id playlist)) as [response |]; [| intros [= <-]; left; by eexists].
  cbn zeta. set (validTracks := validTracksOf response (playedTracks st)).
  destruct (length validTracks =? 0)%nat; [intros [= <-]; left; by eexists |].
  destruct (validTracks !! randomIndex random validTracks) as [t |] eqn:Ht; [| done].
  intros [= <-]. right. exists t. split; [done |].
  assert (Hin : In t validTracks).
  { apply list_elem_of_In. by eapply list_elem_of_lookup_2. }
  by apply validTracksOf_In in Hin as (_ & Hvalid & Hfresh).
Qed.

Lemma serve_queue (r : Request) st (us : list Update) :
  serve r st = Some us ->
  us = []
  \/ (exists message, us = [setError (Some message)])
  \/ exists t,
       us = [setCurrentTrack (Some t);
             setPlayedTracks (fun prev => prev ∪ {[ track_id t ]});
             setError None]
       /\ validateTrack t = true
       /\ (track_id t ∉ playedTracks st).
Proof.
  destruct r as [api random playlist | api random]; cbn.
  - intros H. right. by eapply handlePlaylistSelect_queue.
  - unfold App.handlePlayAgain. destruct (currentTrack st) as [current |]; [| intros [= <-]; by left].
    destruct (find (holds current) (playlists st)) as [currentPlaylist |];
      [| intros [= <-]; by left].
    intros H. right. by eapply handlePlaylistSelect_queue.
Qed.

(** What holds of a session however its calls overlap; [before] is a set
    of identifiers that every render so far had in its played set. *)
Lemma session_overlapping (acts : list Action) (pending : list Pending) st
    (ids : list string) (st' : AppState) (before : gset string) :
  session acts pending st = Some (ids, st') ->
  playedTracks st' = playedTracks st ∪ list_to_set ids
  /\ user st' = user st
  /\ playlists st' = playlists st
  /\ (ids = [] -> currentTrack st' = currentTrack st)
  /\ (forall i, last ids = Some i -> exists t, currentTrack st' = Some t /\ track_id t = i)
  /\ ((forall p, p ∈ pending -> before ⊆ playedTracks (rendered p)) ->
      before ⊆ playedTracks st ->
      forall i, In i ids -> i ∉ before).
Proof.
  revert pending st ids. induction acts as [| [r | n] acts IH]; intros pending st ids; cbn.
  - intros [= <- <-]. cbn. split; [by rewrite (right_id_L ∅ (∪)) |]. do 4 (split; [done |]).
    by intros _ _ i [].
  - intros H. destruct (IH _ _ _ H) as (H1 & H2 & H3 & H4 & H5 & H6).
    do 5 (split; [done |]). intros Hpending Hst. apply H6; [| done].
    intros p [Hp | ->%list_elem_of_singleton]%elem_of_app; [by apply Hpending | done].
  - destruct (pending !! n) as [p |] eqn:Hp; [| done].
    destruct (serve (request p) (rendered p)) as [us |] eqn:Hus; [| done].
    destruct (App.session validateTrack acts (delete n pending) (commit st us))
      as [[ids' st1] |] eqn:Hrest; [| done].
    intros [= <- <-].
    destruct (IH _ _ _ Hrest) as (H1 & H2 & H3 & H4 & H5 & H6).
    assert (Hkept : forall q, q ∈ delete n pending -> q ∈ pending).
    { intros q Hq. by eapply list_elem_of_delete_inv. }
    destruct (serve_queue _ _ _ Hus) as [-> | [[message ->] | (t & -> & Hvalid & Hfresh)]];
      cbn in *.
    + do 5 (split; [done |]). intros Hpending Hst. apply H6; [| done].
      intros q Hq. by apply Hpending, Hkept.
    + do 5 (split; [done |]). intros Hpending Hst. apply H6; [| done].
      intros q Hq. by apply Hpending, Hkept.
    + split; [by rewrite H1, (assoc_L (∪)) |].
      split; [done |]. split; [done |]. split; [done |]. split.
      * intros i. destruct ids' as [| j ids']; cbn.
        -- intros [= <-]. exists t. by rewrite H4.
        -- apply H5.
      * intros Hpending Hst i [<- | Hi].
        -- intros Hin. apply Hfresh. eapply Hpending; [| done].
           by eapply list_elem_of_lookup_2.
        -- apply H6; [| | done].
           ++ intros q Hq. by apply Hpending, Hkept.
           ++ intros j Hj. apply elem_of_union_l. by apply Hst.
Qed.

(** X14: a session, however its calls overlap.  The played set at the
    end is the played set at the start together with the identifiers
    selected, and no identifier selected was in the played set at the
    start; the user and the playlists are never written; the current
    track is the track selected last, or the one at the start when
    nothing was selected; and when the current track was in the played
    set at the start, it is at the end. *)
Theorem session_cells (acts : list Action) st (ids : list string) (st' : AppState) :
  session acts [] st = Some (ids, st') ->
  playedTracks st' = playedTracks st ∪ list_to_set ids
  /\ (forall i, In i ids -> i ∉ playedTracks st)
  /\ user st' = user st
  /\ playlists st' = playlists st
  /\ (ids = [] -> currentTrack st' = currentTrack st)
  /\ (forall i, last ids = Some i -> exists t, currentTrack st' = Some t /\ track_id t = i)
  /\ ((forall t, currentTrack st = Some t -> track_id t ∈ playedTracks st) ->
      forall t, currentTrack st' = Some t -> track_id t ∈ playedTracks st').
Proof.
  intros Hsession.
  destruct (session_overlapping acts [] st ids st' (playedTracks st) Hsession)
    as (Hplayed & Huser & Hlists & Hnil & Hlast & Hbefore).
  split; [done |]. split.
  { apply Hbefore; [| done]. by intros p Hp%elem_of_nil. }
  do 4 (split; [done |]).
  intros Hstart t Ht. rewrite Hplayed.
  destruct (last ids) as [i |] eqn:Hi.
  - destruct (Hlast i eq_refl) as (t' & Ht' & <-).
    assert (t' = t) as -> by congruence.
    apply elem_of_union_r, elem_of_list_to_set.
    apply last_Some in Hi as [front ->]. apply elem_of_app. right. by apply list_elem_of_here.
  - apply last_None in Hi. apply elem_of_union_l, Hstart. by rewrite <- Hnil.
Qed.

Lemma unplayed_elem response (played : gset string) (i : string) :
  i ∈ unplayed response played <->
  exists t, In t (validTracksOf response played) /\ track_id t = i.
Proof.
  unfold Session.unplayed. rewrite elem_of_list_to_set, list_elem_of_In, in_map_iff.
  split; intros (t & H1 & H2); by exists t.
Qed.

Lemma unplayed_nil response (played : gset string) :
  validTracksOf response played = [] -> unplayed response played = ∅.
Proof. unfold Session.unplayed. by intros ->. Qed.

Lemma unplayed_grown response (played : gset string) (i : string) :
  unplayed response (played ∪ {[ i ]}) = unplayed response played ∖ {[ i ]}.
Proof.
  apply set_eq. intros j.
  rewrite elem_of_difference, !unplayed_elem, elem_of_singleton. split.
  - intros (t & Ht & <-). apply validTracksOf_In in Ht as (H1 & H2 & H3).
    split.
    + exists t. split; [| done]. apply validTracksOf_In. split; [done |]. split; [done |].
      intros H. apply H3. by apply elem_of_union_l.
    + intros Heq. apply H3. apply elem_of_union_r. by apply elem_of_singleton.
  - intros [(t & Ht & <-) Hne]. apply validTracksOf_In in Ht as (H1 & H2 & H3).
    exists t. split; [| done]. apply validTracksOf_In. split; [done |]. split; [done |].
    intros [H | H%elem_of_singleton]%elem_of_union; [by apply H3 | by apply Hne].
Qed.

Lemma picks_cons api playlist (random : Q) (randoms : list Q) st :
  session (oneByOne (picks api playlist (random :: randoms))) [] st =
    match handlePlaylistSelect api random playlist st with
    | Some us =>
        match session (oneByOne (picks api playlist randoms)) [] (commit st us) with
        | Some (ids, st') => Some (selected us ++ ids, st')
        | None => None
        end
    | None => None
    end.
Proof. reflexivity. Qed.

(** X15: a playlist played to its end.  When the user picks the same
    playlist again and again, each time after the pick before has
    settled, and the catalogue answers with the same tracks, the picks
    select, one each and never one twice, identifiers of valid tracks not
    played before, as many as there are picks or unplayed identifiers,
    whichever is fewer; once there are more picks than unplayed
    identifiers, every one of them has been selected and the message says
    there are no more tracks. *)
Theorem playlist_exhausted api playlist response (randoms : list Q) st :
  api (playlist_id playlist) = Some response ->
  isArray (items response) ->
  Forall isDraw randoms ->
  exists ids st',
    session (oneByOne (picks api playlist randoms)) [] st = Some (ids, st')
    /\ length ids = Nat.min (length randoms) (size (unplayed response (playedTracks st)))
    /\ NoDup ids
    /\ (forall i, In i ids -> i ∈ unplayed response (playedTracks st))
    /\ ((size (unplayed response (playedTracks st)) < length randoms)%nat ->
        list_to_set ids = unplayed response (playedTracks st)
        /\ error st' = Some "No more unplayed tracks in this playlist!").
Proof.
  intros Hresponse Harray Hrandoms. revert st.
  induction Hrandoms as [| random randoms Hrandom _ IH]; intros st.
  - exists [], st. cbn. split; [done |]. split; [done |]. split; [constructor |].
    split; [by intros i [] |]. lia.
  - rewrite picks_cons.
    destruct (validTracksOf response (playedTracks st)) as [| t0 l] eqn:E.
    + assert (Hus : handlePlaylistSelect api random playlist st
                    = Some [setError (Some noMoreTracks)]).
      { unfold App.handlePlaylistSelect. rewrite Hresponse. cbn zeta. by rewrite E. }
      rewrite Hus. set (st1 := commit st [setError (Some noMoreTracks)]).
      destruct (IH st1) as (ids & st' & Hsession & Hlen & Hnodup & Hin & Hend).
      change (playedTracks st1) with (playedTracks st) in *.
      rewrite (unplayed_nil _ _ E) in *. rewrite size_empty in *.
      rewrite Hsession.
      rewrite Nat.min_0_r in Hlen. apply nil_length_inv in Hlen as ->.
      exists [], st'. cbn. split; [done |]. split; [done |]. split; [constructor |].
      split; [by intros i [] |]. intros _. split; [done |].
      destruct randoms as [| random' randoms].
      * cbn in Hsession. by injection Hsession as <-.
      * apply Hend. cbn. lia.
    + destruct (handlePlaylistSelect_selects SpotifyUser validateTrack api random playlist st
                  response) as (t & Hus & Hitem & Hvalid & Hfresh); [done | done | done | |].
      { assert (Ht0 : In t0 (validTracksOf response (playedTracks st))) by (rewrite E; by left).
        apply validTracksOf_In in Ht0 as (H1 & H2 & H3).
        apply in_map_iff in H1 as (item & <- & Hitem). by exists item. }
      rewrite Hus.
      match goal with |- context [App.session _ _ _ (commit st ?us)] =>
        destruct (IH (commit st us)) as (ids & st' & Hsession & Hlen & Hnodup & Hin & Hend)
      end.
      rewrite Hsession. cbn [selected app].
      change (playedTracks (commit st _)) with (playedTracks st ∪ {[ track_id t ]})
        in Hlen, Hin, Hend.
      rewrite unplayed_grown in Hlen, Hin, Hend.
      set (U := unplayed response (playedTracks st)) in *.
      assert (Ht : track_id t ∈ U).
      { apply unplayed_elem. exists t. split; [| done]. by apply validTracksOf_In. }
      assert (Hsize : size U = S (size (U ∖ {[ track_id t ]}))).
      { rewrite size_difference by (by apply singleton_subseteq_l).
        rewrite size_singleton.
        assert (size U <> 0)%nat; [| lia].
        intros H0. apply size_empty_inv in H0. by rewrite (H0 (track_id t)) in Ht. }
      exists (track_id t :: ids), st'. cbn [length]. split; [done |].
      split; [rewrite Hsize; cbn; lia |].
      split.
      { apply NoDup_cons. split; [| done].
        intros Hhere%list_elem_of_In. apply Hin in Hhere.
        apply elem_of_difference in Hhere as [_ Hhere]. apply Hhere. by apply elem_of_singleton. }
      split.
      { intros i [<- | Hi]; [done |]. apply Hin in Hi. by apply elem_of_difference in Hi as [Hi _]. }
      intros Hmore. destruct Hend as [Hall Herror]; [rewrite Hsize in Hmore; lia |].
      split; [| done]. rewrite list_to_set_cons, Hall.
      symmetry. by apply union_difference_singleton_L.
Qed.


End SessionFacts.

(** ** The first load and the routes *)

Section LoadFacts.

Import App Load.

Variable SpotifyUser : Type.
Variable validatePlaylist : SpotifyPlaylist -> bool.

Abbreviation AppState := (AppState SpotifyUser).
Abbreviation loadOnMount := (@loadOnMount SpotifyUser validatePlaylist).

(** X17: the first load.  Without a stored token nothing is requested
    and no cell is written.  With one, the cells end the same whichever
    of the two requests settles first: the user is stored when its
    request resolves and a failure of it leaves no trace in the cells;
    the playlists stored are those of the answer that pass
    [validatePlaylist], in the order of the answer, and a failure of
    their request leaves the playlists alone and sets the message.  The
    current track and the played set are never written. *)
Theorem loadOnMount_cells (token : option string) (currentUser : Settled SpotifyUser)
    (userPlaylists : Settled PlaylistsResponse) (userFirst : bool) (st : AppState) :
  let st' := written st (loadOnMount token currentUser userPlaylists userFirst) in
  st' = written st (loadOnMount token currentUser userPlaylists (negb userFirst))
  /\ currentTrack st' = currentTrack st
  /\ playedTracks st' = playedTracks st
  /\ (truthy token = false -> st' = st)
  /\ (truthy token = true ->
      user st' = match currentUser with resolved u => Some u | rejected => user st end
      /\ playlists st' = match userPlaylists with
                         | resolved data => List.filter validatePlaylist (playlists_items data)
                         | rejected => playlists st
                         end
      /\ error st' = match userPlaylists with
                     | resolved _ => error st
                     | rejected => Some "Failed to load playlists. Please try again."
                     end
      /\ (forall data p, userPlaylists = resolved data -> In p (playlists st') ->
            In p (playlists_items data) /\ validatePlaylist p = true)).
Proof.
  unfold Load.loadOnMount. destruct (truthy token); cbn.
  - split; [by destruct userFirst, currentUser, userPlaylists |].
    split; [by destruct userFirst, currentUser, userPlaylists |].
    split; [by destruct userFirst, currentUser, userPlaylists |].
    split; [done |]. intros _.
    split; [by destruct userFirst, currentUser, userPlaylists |].
    split; [by destruct userFirst, currentUser, userPlaylists |].
    split; [by destruct userFirst, currentUser, userPlaylists |].
    intros data p ->. destruct userFirst, currentUser; cbn; apply filter_In.
  - by destruct userFirst.
Qed.

End LoadFacts.

Section RouteFacts.

Import Routes.

(** X18: the routes never send the visitor round in circles.  Every
    route comes to a page after at most one [Navigate]; the page is Home
    only for a visitor with a stored token and Login only for one
    without, and the callback route shows the callback page to both. *)
Theorem routes_land (isAuthenticated : bool) (r : Route) :
  exists page,
    (forall fuel, (1 <= fuel)%nat -> land fuel isAuthenticated r = Some page)
    /\ (forall to, page <> Navigate to)
    /\ (page = Home <-> isAuthenticated = true /\ r <> callback)
    /\ (page = Login <-> isAuthenticated = false /\ r <> callback)
    /\ (page = Callback <-> r = callback).
Proof.
  exists (match element isAuthenticated r with
          | Navigate to => element isAuthenticated to
          | page => page
          end).
  destruct isAuthenticated, r; cbn;
    (split; [intros [| [| fuel]] Hfuel; [lia | reflexivity | reflexivity] |]);
    (split; [done |]); repeat split; try done; by intros [? ?].
Qed.

End RouteFacts.

(** ** The further properties on the sample data *)

Section Scenarios.

Import Number GamePlayer App Sample Scenario.

Abbreviation similarity := Similarity.calculateSimilarity.
Abbreviation toggle := PlaybackEngine.togglePlayback.

Lemma calculateScore_monotone_witness :
  artists getBack = [beatles; preston]
  /\ timer (titleOnly 15) = timer (guessed 15)
  /\ similarity (titleGuess (titleOnly 15)) "Get Back"
       <= similarity (titleGuess (guessed 15)) "Get Back"
  /\ similarity (artistGuess (titleOnly 15)) "The Beatles"
       <= similarity (artistGuess (guessed 15)) "The Beatles"
  /\ exists r1 r2,
       calculateScore similarity getBack (titleOnly 15) = Some r1
       /\ calculateScore similarity getBack (guessed 15) = Some r2
       /\ (score r1 <= score r2)%Z.
Proof.
  split; [reflexivity |]. split; [reflexivity |].
  split; [by vm_compute |]. split; [by vm_compute |].
  apply (calculateScore_monotone similarity getBack beatles [preston]);
    [reflexivity | reflexivity | by vm_compute | by vm_compute].
Defined.

Lemma isCorrect_score_witness :
  artists getBack = [beatles; preston]
  /\ exists r,
       calculateScore similarity getBack (guessed 4.5) = Some r
       /\ (isCorrect r = true -> (6400 <= score r)%Z).
Proof.
  split; [reflexivity |].
  destruct (isCorrect_score similarity getBack beatles [preston] (guessed 4.5) eq_refl)
    as (r & Hr & Hcorrect & _).
  exists r. split; [exact Hr | exact Hcorrect].
Defined.

Lemma tick_advances_witness :
  0 <= timer (game guessing)
  /\ fl (timer (game guessing)) == timer (game guessing)
  /\ exists w',
       exec tick guessing = Some w'
       /\ timer (game guessing) <= timer (game w')
       /\ calls w' = calls guessing.
Proof.
  split; [by vm_compute |]. split; [by vm_compute |].
  destruct (tick_advances guessing) as (w' & Hw' & Hle & _ & _ & _ & _ & _ & _ & _ & _ & Hcalls);
    [by vm_compute | by vm_compute |].
  exists w'. split; [exact Hw' |]. split; [exact Hle | exact Hcalls].
Defined.


Lemma handleSubmitGuess_records_witness :
  artists getBack = [beatles; preston]
  /\ exists e w',
       exec (handleSubmitGuess similarity getBack 1730505600000 (game guessing)) guessing
         = Some w'
       /\ phase w' = Scored
       /\ trackId e = "4MLBqAEzNN89o2M9h92Z26"
       /\ time e = 4.5
       /\ timestamp e = 1730505600000%Z
       /\ albumImage e = "https://i.scdn.co/image/letitbe".
Proof.
  split; [reflexivity |].
  destruct (handleSubmitGuess_records similarity getBack beatles [preston]
              1730505600000 (game guessing) guessing eq_refl)
    as (r & e & w' & _ & Hw' & _ & _ & Hphase & _ & _ & Hid & _ & Htime & Hstamp & _ & Himage).
  exists e, w'. split; [exact Hw' |]. split; [exact Hphase |].
  split; [exact Hid |]. split; [exact Htime |]. split; [exact Hstamp |].
  exact (Himage _ _ eq_refl).
Defined.




Lemma one_interval_witness :
  Interval.lifecycle false effects = true
  /\ (forall handle, handle ∈ Interval.live (Interval.commits effects Interval.fresh) ->
        Interval.intervalRef (Interval.commits effects Interval.fresh) = Some handle)
  /\ Interval.live (Interval.commit (Interval.commits effects Interval.fresh) Interval.Unmount) = ∅.
Proof.
  split; [reflexivity |].
  destruct (one_interval effects eq_refl) as (Htracked & _ & Hunmount).
  split; [exact Htracked | exact Hunmount].
Defined.

Lemma playback_update_stops_timer_witness :
  Interval.lifecycle false [Interval.Mount true] = true
  /\ Interval.live (Interval.commit (Interval.commits [Interval.Mount true] Interval.fresh)
                      (Interval.Update true false true)) = ∅.
Proof.
  split; [reflexivity |].
  exact (playback_update_stops_timer [Interval.Mount true] true eq_refl).
Defined.

Lemma draw_075 : isDraw 0.75.
Proof. split; [by vm_compute | split; unfold Qle, Qlt; cbn; lia]. Qed.

Lemma draw_025 : isDraw 0.25.
Proof. split; [by vm_compute | split; unfold Qle, Qlt; cbn; lia]. Qed.

Lemma draw_05 : isDraw 0.5.
Proof. split; [by vm_compute | split; unfold Qle, Qlt; cbn; lia]. Qed.

Lemma session_cells_witness :
  exists ids st',
    session hasId overlapping [] fresh = Some (ids, st')
    /\ playedTracks st' = playedTracks fresh ∪ list_to_set ids
    /\ playlists st' = [playlist]
    /\ forall i, In i ids -> i ∉ playedTracks fresh.
Proof.
  destruct (session hasId overlapping [] fresh) as [[ids st'] |] eqn:E;
    [| vm_compute in E; discriminate E].
  exists ids, st'. split; [reflexivity |].
  destruct (session_cells unit hasId overlapping fresh ids st' E)
    as (Hplayed & Hbefore & _ & Hlists & _).
  split; [exact Hplayed |]. split; [exact Hlists | exact Hbefore].
Defined.

Lemma playlist_exhausted_witness :
  api (playlist_id playlist) =
    Some {| items := [ {| track := getBack |}; {| track := acrossTheUniverse |} ] |}
  /\ isArray [ {| track := getBack |}; {| track := acrossTheUniverse |} ]
  /\ Forall isDraw [0.75; 0.25; 0.5]
  /\ exists ids st',
       session hasId (oneByOne (Session.picks api playlist [0.75; 0.25; 0.5])) [] fresh
         = Some (ids, st')
       /\ length ids = 2%nat
       /\ NoDup ids
       /\ App.error st' = Some "No more unplayed tracks in this playlist!".
Proof.
  assert (Harray : isArray [ {| track := getBack |}; {| track := acrossTheUniverse |} ]).
  { unfold isArray. cbn. lia. }
  assert (Hdraws : Forall isDraw [0.75; 0.25; 0.5]).
  { repeat constructor; [apply draw_075 | apply draw_025 | apply draw_05]. }
  split; [reflexivity |]. split; [exact Harray |]. split; [exact Hdraws |].
  destruct (playlist_exhausted unit hasId api playlist _ [0.75; 0.25; 0.5] fresh
              eq_refl Harray Hdraws)
    as (ids & st' & Hsession & Hlen & Hnodup & _ & Hend).
  assert (Hsize : size (Session.unplayed hasId
                          {| items := [ {| track := getBack |};
                                        {| track := acrossTheUniverse |} ] |}
                          (playedTracks fresh)) = 2%nat) by (by vm_compute).
  rewrite Hsize in Hlen, Hend.
  exists ids, st'. split; [exact Hsession |]. split; [exact Hlen |].
  split; [exact Hnodup |]. apply Hend. cbn. lia.
Defined.


End Scenarios.
